(** * SynGrid / gridtracer: the road network builder

    A shallow embedding of
    [src/gridtracer/data/imports/osm/road_network_builder.py]
    (class [RoadNetworkBuilder]): the tag resolver, the final-mask filter,
    the flag packer, the two loops of [_process_and_write_edges] and the
    chunking of the insert statements in [build_network].

    Conventions of the embedding.
    - A Python [str] is a [string]; its characters stand for the code points
      0..255. [lower] and [strip] follow Python on that alphabet.
    - A Python [float] is a primitive binary64 [float]; an [int] is a [Z].
    - A [dict] with string keys is a [gmap string _], a [set] of strings a
      [gset string].
    - A cell of the edge table, and a value of a row's nested tag dictionary,
      is a scalar or, where the graph provider merged segments, a flat list
      of scalars. Scalars are hashable; a dictionary membership test on a
      list raises [TypeError].
    - An integer is of moderate length: the limit of recent Python versions
      on the decimal text of very long integers plays no part.
    - An exception that leaves a loop is an explicit [Raise] outcome. *)

From Stdlib Require Import ZArith String Ascii List Lia Bool.
From Stdlib Require Import PrimFloat Floats.SpecFloat Floats.FloatOps.
From Stdlib Require Import DecimalString Sorted.
From stdpp Require Import gmap strings list.

Open Scope string_scope.
Open Scope Z_scope.
Open Scope list_scope.

(* ===================================================================== *)
(** ** Python primitives *)
(* ===================================================================== *)

(** [c.isspace()] on the code points below 256. *)
Definition isspace (c : ascii) : bool :=
  let n := N_of_ascii c in
  (((9 <=? n) && (n <=? 13)) || ((28 <=? n) && (n <=? 32))
   || (n =? 133) || (n =? 160))%N.

(** [c.lower()] on the code points below 256: A-Z and the accented capitals
    of the Latin-1 block (all of 192..222 but the multiplication sign). *)
Definition lower_char (c : ascii) : ascii :=
  let n := N_of_ascii c in
  if (((65 <=? n) && (n <=? 90))
      || ((192 <=? n) && (n <=? 222) && negb (n =? 215)))%N
  then ascii_of_N (n + 32) else c.

(** [s.lower()] *)
Fixpoint lower (s : string) : string :=
  match s with
  | EmptyString => EmptyString
  | String c s' => String (lower_char c) (lower s')
  end.

(** [s.lstrip()] *)
Fixpoint lstrip (s : string) : string :=
  match s with
  | EmptyString => EmptyString
  | String c s' => if isspace c then lstrip s' else s
  end.

(** [s.rstrip()]: the result is empty as long as only white space follows. *)
Fixpoint rstrip (s : string) : string :=
  match s with
  | EmptyString => EmptyString
  | String c s' =>
      match rstrip s' with
      | EmptyString => if isspace c then EmptyString else String c EmptyString
      | r => String c r
      end
  end.

(** [s.strip()] *)
Definition strip (s : string) : string := rstrip (lstrip s).

(** [s.replace(old, new)] for a one-character [old]. *)
Fixpoint replace (old : ascii) (new : string) (s : string) : string :=
  match s with
  | EmptyString => EmptyString
  | String c s' =>
      if Ascii.eqb c old then new +:+ replace old new s'
      else String c (replace old new s')
  end.

(** [s.split(sep)] for a one-character [sep]; the result is never empty. *)
Fixpoint split (sep : ascii) (s : string) : list string :=
  match s with
  | EmptyString => [EmptyString]
  | String c s' =>
      if Ascii.eqb c sep then EmptyString :: split sep s'
      else match split sep s' with
           | w :: ws => String c w :: ws
           | [] => [String c EmptyString]
           end
  end.

(** [sep.join(l)] *)
Fixpoint join (sep : string) (l : list string) : string :=
  match l with
  | [] => EmptyString
  | [x] => x
  | x :: l' => x +:+ sep +:+ join sep l'
  end.

(** [range(start, stop, step)] for [0 < step]. *)
Definition range (start stop step : nat) : list nat :=
  map (fun k => (start + k * step)%nat)
      (seq 0 ((stop - start + step - 1) / step)%nat).

(** [l[i:j]] for non-negative bounds. *)
Definition slice {A} (l : list A) (i j : nat) : list A :=
  take (j - i)%nat (drop i l).

(** [float(z)], rounding to nearest even. (An [int] beyond the binary64 range
    raises [OverflowError] in Python and is infinite here: see
    [float_overflows], which the code that divides by an [int] tests.) *)
Definition float_of_Z (z : Z) : float :=
  SF2Prim (binary_normalize prec emax z 0 false).

(** Scalars that occur in the cells of the edge table and in tag bags. *)
Inductive scalar :=
| SNone                 (* None *)
| SNaN                  (* float('nan'), pandas' missing value *)
| SBool (b : bool)
| SInt (z : Z)
| SStr (s : string).

(** A cell: a scalar, or a list of scalars after segments were merged. *)
Inductive value :=
| VScalar (x : scalar)
| VList (l : list scalar).

(** [str(x)] *)
Definition str (x : scalar) : string :=
  match x with
  | SNone => "None"
  | SNaN => "nan"
  | SBool true => "True"
  | SBool false => "False"
  | SInt z => NilZero.string_of_int (Z.to_int z)
  | SStr s => s
  end.

(** [bool(x)] *)
Definition truthy (x : scalar) : bool :=
  match x with
  | SNone => false
  | SNaN => true
  | SBool b => b
  | SInt z => negb (Z.eqb z 0)
  | SStr s => negb (String.eqb s "")
  end.

(** [pd.notna(x)] *)
Definition notna (x : scalar) : bool :=
  match x with
  | SNone | SNaN => false
  | _ => true
  end.

(** The idiom
    [if isinstance(v, list): v = v[0] if v else dflt]. *)
Definition first_of_list (dflt : scalar) (v : value) : scalar :=
  match v with
  | VScalar x => x
  | VList [] => dflt
  | VList (x :: _) => x
  end.

(** [k in d] and [d[k]] for a dictionary with string keys: a scalar that is
    not a string is hashable and equal to no key. *)
Definition dict_get {V} (d : gmap string V) (k : scalar) : option V :=
  match k with
  | SStr s => d !! s
  | _ => None
  end.

(** [bool(v)] for a cell: a list is true unless it is empty. *)
Definition truthy_value (v : value) : bool :=
  match v with
  | VScalar x => truthy x
  | VList [] => false
  | VList (_ :: _) => true
  end.

(** The exceptions the builder can meet on such cells: [l[0]] on an empty
    list, the hash of a list, the conversion of too large an [int] to
    [float]. *)
Inductive exn := IndexError | TypeError | OverflowError.

(** [float / int] and [float(int)] raise [OverflowError] when the integer
    rounds to a value beyond the binary64 range. *)
Definition float_overflows (z : Z) : bool :=
  PrimFloat.is_infinity (float_of_Z z).

(* ===================================================================== *)
(** ** Configuration *)
(* ===================================================================== *)

(** One entry of [config['way_tag_resolver']['tags']]; every key is read with
    [cfg.get], so every key may be missing. *)
Record TagRule := {
  rule_clazz : option Z;
  rule_maxspeed : option Z;
  rule_flags : option (list string)
}.

Record WayTagResolver := {
  wtr_tags : option (gmap string TagRule);
  wtr_final_mask : option string;
  wtr_flag_list : option (list string)
}.

Record Config := {
  way_tag_resolver : option WayTagResolver
}.

(** [self.config.get('way_tag_resolver', {}).get(key, dflt)] *)
Definition wtr_get {A} (cfg : Config) (key : WayTagResolver -> option A)
    (dflt : A) : A :=
  default dflt (way_tag_resolver cfg ≫= key).

(** The built-in [default_config] of [_load_config]. *)
Definition default_config : Config :=
  {| way_tag_resolver := Some
       {| wtr_tags := Some {[ "motorway" :=
             {| rule_clazz := Some 11; rule_maxspeed := Some 120;
                rule_flags := Some ["car"] |} ]};
          wtr_final_mask := None;
          wtr_flag_list := Some ["car"; "bike"; "foot"] |} |}.

(* ===================================================================== *)
(** ** Flag packer, tag resolver, mask filter *)
(* ===================================================================== *)

(** [{flag: 1 << i for i, flag in enumerate(flag_list)}]: the entries are
    inserted from left to right, a repeated name keeps its last position. *)
Definition flag_bitmask (flag_list : list string) : gmap string Z :=
  foldl (fun d p => <[p.2 := 1 ≪ Z.of_nat p.1]> d) ∅ (imap pair flag_list).

(** The loop [for flag in l: mask |= flag_bitmask.get(flag, 0)]. *)
Definition or_flags (d : gmap string Z) (l : list string) : Z :=
  foldl (fun mask flag => Z.lor mask (default 0 (d !! flag))) 0 l.

Definition config_flag_list (cfg : Config) : list string :=
  wtr_get cfg wtr_flag_list ["car"; "bike"; "foot"].

Definition _flags_to_int (cfg : Config) (flags_set : gset string) : Z :=
  let flag_list := config_flag_list cfg in
  if decide (flags_set = ∅) then 0
  else or_flags (flag_bitmask flag_list) (elements flags_set).

Definition _resolve_way_tags (cfg : Config) (tags_dict : gmap string value)
    : exn + (Z * Z * gset string) :=
  let way_tag_config := wtr_get cfg wtr_tags ∅ in
  let highway_type := default (VScalar SNone) (tags_dict !! "highway") in
  if truthy_value highway_type then
    match highway_type with
    | VList _ => inl TypeError        (* [in] hashes its left operand *)
    | VScalar key =>
        match dict_get way_tag_config key with
        | Some rule =>
            let flags : gset string :=
              list_to_set (default [] (rule_flags rule)) in
            inr (default 0 (rule_clazz rule),
                 default 0 (rule_maxspeed rule), flags)
        | None => inr (0, 0, ∅)
        end
    end
  else inr (0, 0, ∅).

(** [set(final_mask_str.split(',')) if final_mask_str else None] *)
Definition final_mask_flags (cfg : Config) : option (gset string) :=
  match way_tag_resolver cfg ≫= wtr_final_mask with
  | Some final_mask_str =>
      if String.eqb final_mask_str "" then None
      else Some (list_to_set (split "," final_mask_str))
  | None => None
  end.

Definition _is_way_allowed_by_final_mask (cfg : Config)
    (flags_set : gset string) : bool :=
  match final_mask_flags cfg with
  | None => true
  | Some mask =>
      if decide (flags_set = ∅) then false
      else negb (bool_decide (mask ## flags_set))
  end.

(* ===================================================================== *)
(** ** Edge table and the two loops of [_process_and_write_edges] *)
(* ===================================================================== *)

(** What the code observes of a shapely geometry. [None] in a field means
    that reading it raises. *)
Record Geometry := {
  geom_is_empty : bool;                          (* bool(geom) is its negation *)
  geom_length : option float;                    (* geom.length *)
  geom_coords : option (list (float * float));   (* list(geom.coords) *)
  geom_hex_ewkb : option string                  (* wkb_dumps(geom, hex=True, srid=4326) *)
}.

(** One row of [edges_gdf]. [None] is a column the table does not have (for
    the geometry: a cell without a geometry object). *)
Record EdgeRow := {
  row_highway : option value;
  row_tags : option (gmap string value);   (* present only when the cell is a dict *)
  row_osm_id : option scalar;
  row_id : option scalar;
  row_osmid : option value;
  row_length : option float;
  row_geometry : option Geometry;
  row_oneway : option value;
  row_name : option value;
  row_ref : option value;
  row_u : option Z;
  row_v : option Z;
  row_source : option Z;
  row_target : option Z
}.

(** [processed_edge]: the row's own columns ([row.to_dict()]) and the keys the
    first loop adds. *)
Record ProcessedEdge := {
  pe_row : EdgeRow;
  pe_osm_id : scalar;
  pe_clazz : Z;
  pe_kmh : Z;
  pe_flags_set : gset string;
  pe_km : float;
  pe_cost : float;
  pe_reverse_cost : float
}.

(** What one pass through a loop body does. *)
Inductive step (A : Type) :=
| Append (a : A)     (* reaches the [append] at the end of the body *)
| Continue           (* [continue] *)
| Raise (e : exn).   (* an exception leaves the loop *)
Arguments Append {A} a.
Arguments Continue {A}.
Arguments Raise {A} e.

(** Runs a loop body over the rows with their index, collecting the appended
    items in order; the first exception ends the loop. *)
Fixpoint run_loop {A B} (body : Z -> A -> step B) (idx : Z) (rows : list A)
    : exn + list B :=
  match rows with
  | [] => inr []
  | row :: rows' =>
      match body idx row with
      | Raise e => inl e
      | Continue => run_loop body (idx + 1) rows'
      | Append b =>
          match run_loop body (idx + 1) rows' with
          | inl e => inl e
          | inr bs => inr (b :: bs)
          end
      end
  end.

(** [highway_val] after the list normalisation. *)
Definition highway_of (row : EdgeRow) : scalar :=
  first_of_list SNone (default (VScalar SNone) (row_highway row)).

(** [tags = {"highway": highway_val}], then [tags.update(row['tags'])]: the
    values of the nested dictionary are taken as they are. *)
Definition tags_of (row : EdgeRow) : gmap string value :=
  let tags : gmap string value := {[ "highway" := VScalar (highway_of row) ]} in
  match row_tags row with
  | Some d => d ∪ tags
  | None => tags
  end.

(** [way_id = row.get("osm_id", row.get("id", idx))] *)
Definition way_id_of (idx : Z) (row : EdgeRow) : scalar :=
  default (default (SInt idx) (row_id row)) (row_osm_id row).

(** [length_m], with the fall-back to the geometry's own length. *)
Definition length_m_of (row : EdgeRow) : float :=
  let length_m := default 0%float (row_length row) in
  match row_geometry row with
  | Some g =>
      if PrimFloat.eqb length_m 0 && negb (geom_is_empty g)
      then default 0%float (geom_length g)
      else length_m
  | None => length_m
  end.

(** [oneway_val] after the list normalisation. *)
Definition oneway_of (row : EdgeRow) : scalar :=
  first_of_list (SStr "no") (default (VScalar (SStr "no")) (row_oneway row)).

Definition is_oneway (oneway_val : scalar) : bool :=
  bool_decide (lower (str oneway_val) ∈ ["yes"; "true"; "1"; "-1"]).

Definition forward_cost (km : float) (maxspeed : Z) : float :=
  if Z.ltb 0 maxspeed then PrimFloat.div km (float_of_Z maxspeed)
  else PrimFloat.mul km (float_of_Z 10).

Definition reverse_cost_of (oneway_val : scalar) (cost : float) : float :=
  if is_oneway oneway_val then
    if String.eqb (str oneway_val) "-1" then cost
    else float_of_Z 100000
  else cost.

(** The body of the first loop. *)
Definition process_row (cfg : Config) (idx : Z) (row : EdgeRow)
    : step ProcessedEdge :=
  let tags := tags_of row in
  let way_id := way_id_of idx row in
  match _resolve_way_tags cfg tags with
  | inl e => Raise e
  | inr (clazz, maxspeed, flags) =>
      if negb (_is_way_allowed_by_final_mask cfg flags) then Continue
      else if Z.eqb clazz 0 then Continue
      else
        let osm_id :=
          match row_osmid row with
          | Some (VList []) => inl IndexError          (* osm_id_val[0] *)
          | Some (VList (x :: _)) => inr x
          | Some (VScalar SNone) | None => inr way_id
          | Some (VScalar x) => inr x
          end in
        match osm_id with
        | inl e => Raise e
        | inr osm_id =>
            let km := PrimFloat.div (length_m_of row) 1000 in
            if Z.ltb 0 maxspeed && float_overflows maxspeed
            then Raise OverflowError                   (* km / maxspeed *)
            else
              let cost := forward_cost km maxspeed in
              Append {| pe_row := row; pe_osm_id := osm_id;
                        pe_clazz := clazz; pe_kmh := maxspeed;
                        pe_flags_set := flags; pe_km := km; pe_cost := cost;
                        pe_reverse_cost :=
                          reverse_cost_of (oneway_of row) cost |}
        end
  end.

(** [processed_edges_list] at the end of the first loop. *)
Definition processed_edges_list (cfg : Config) (edges_gdf : list EdgeRow)
    : exn + list ProcessedEdge :=
  run_loop (process_row cfg) 0 edges_gdf.

(** [final_name_for_sql] of the second loop. *)
Definition sql_quote (s : string) : string :=
  "'" +:+ replace "'" "''" s +:+ "'".

Definition final_name_for_sql (name ref : option value) : string :=
  let osm_name_val := first_of_list SNone (default (VScalar SNone) name) in
  let ref_val := first_of_list SNone (default (VScalar SNone) ref) in
  if notna osm_name_val && negb (String.eqb (strip (str osm_name_val)) "")
  then sql_quote (str osm_name_val)
  else if notna ref_val && negb (String.eqb (strip (str ref_val)) "")
  then sql_quote (str ref_val)
  else "NULL".

(** The values interpolated into one insert tuple, in column order. The text
    of the tuple (the [.7f] formatting of the floats) is not modelled, and
    the [osm_id] column is left out: its cells are read back from the
    rebuilt frame, where pandas has chosen the type of the column. *)
Record InsertTuple := {
  t_id : Z;
  t_osm_name : string;
  t_osm_meta : string;
  t_osm_source_id : Z;
  t_osm_target_id : Z;
  t_clazz : Z;
  t_flags : Z;
  t_source : Z;
  t_target : Z;
  t_km : float;
  t_kmh : Z;
  t_cost : float;
  t_reverse_cost : float;
  t_start : float * float;
  t_end : float * float;
  t_geom_way : string
}.

(** The [try] block of the second loop: first and last coordinate pair and
    the hexadecimal geometry, or [None] when any of them raises. *)
Definition geometry_fields (g : option Geometry)
    : option ((float * float) * (float * float) * string) :=
  g ≫= fun g =>
  geom_coords g ≫= fun coords =>
  head coords ≫= fun p1 =>
  last coords ≫= fun p2 =>
  geom_hex_ewkb g ≫= fun hex =>
  Some (p1, p2, hex).

(** The body of the second loop, over the processed edges. *)
Definition insert_tuple (cfg : Config) (idx : Z) (e : ProcessedEdge)
    : step InsertTuple :=
  let row := pe_row e in
  match geometry_fields (row_geometry row) with
  | None => Continue
  | Some (p1, p2, hex) =>
      Append {| t_id := idx;
                t_osm_name := final_name_for_sql (row_name row) (row_ref row);
                t_osm_meta := "NULL";
                t_osm_source_id := default (-1) (row_u row);
                t_osm_target_id := default (-1) (row_v row);
                t_clazz := pe_clazz e;
                t_flags := _flags_to_int cfg (pe_flags_set e);
                t_source := default (-1) (row_source row);
                t_target := default (-1) (row_target row);
                t_km := pe_km e; t_kmh := pe_kmh e;
                t_cost := pe_cost e; t_reverse_cost := pe_reverse_cost e;
                t_start := p1; t_end := p2; t_geom_way := hex |}
  end.

Definition _process_and_write_edges (cfg : Config) (edges_gdf : list EdgeRow)
    : exn + list InsertTuple :=
  match processed_edges_list cfg edges_gdf with
  | inl e => inl e
  | inr edges => run_loop (insert_tuple cfg) 0 edges
  end.

(* ===================================================================== *)
(** ** Chunked insert statements of [build_network] *)
(* ===================================================================== *)

Definition chunk_size : nat := 1000.

Definition insert_prefix : string := "INSERT INTO public_2po_4pgr VALUES".

Definition newline : string := String (ascii_of_nat 10) EmptyString.

(** [insert_value_tuples[i:i + chunk_size]] for [i] in
    [range(0, len(insert_value_tuples), chunk_size)]. *)
Definition chunks {A} (insert_value_tuples : list A) : list (list A) :=
  map (fun i => slice insert_value_tuples i (i + chunk_size))
      (range 0 (length insert_value_tuples) chunk_size).

Definition chunk_insert (chunk : list string) : string :=
  insert_prefix +:+ newline +:+ join ("," +:+ newline) chunk +:+ ";" +:+ newline.

(** The insert statements appended to [full_sql_content]; nothing is appended
    when there are no tuples. *)
Definition insert_statements (insert_value_tuples : list string)
    : list string :=
  match insert_value_tuples with
  | [] => []
  | _ => map chunk_insert (chunks insert_value_tuples)
  end.

Definition full_sql_content (header_sql index_sql : string)
    (insert_value_tuples : list string) : list string :=
  [header_sql] ++ insert_statements insert_value_tuples ++ [index_sql].

(* ===================================================================== *)
(** ** Notions the statements refer to *)
(* ===================================================================== *)

(** The packed value as the specification words it: the bitwise OR, over the
    positions [i] of the vocabulary, of [1 << i] when the flag at [i] is in
    the set. *)
Definition or_list (l : list Z) : Z := foldr Z.lor 0 l.

Definition pack_spec (flag_list : list string) (flags_set : gset string) : Z :=
  or_list (imap (fun i flag =>
                   if decide (flag ∈ flags_set) then 1 ≪ Z.of_nat i else 0)
                flag_list).

(** A tag value is a key of the rule table. *)
Definition is_rule_key (cfg : Config) (v : value) : Prop :=
  ∃ s, v = VScalar (SStr s) ∧ is_Some (wtr_get cfg wtr_tags ∅ !! s).

(** A tag value is a list with an element. *)
Definition is_nonempty_list (v : value) : Prop :=
  ∃ x l, v = VList (x :: l).

(** The row resolves, without an exception, to the given class. *)
Definition resolves_to_clazz (cfg : Config) (row : EdgeRow) (clazz : Z)
    : Prop :=
  ∃ maxspeed flags,
    _resolve_way_tags cfg (tags_of row) = inr (clazz, maxspeed, flags).

(** The rows of a text occur in it one after the other. *)
Fixpoint occur_in_order (rows : list string) (text : string) : Prop :=
  match rows with
  | [] => True
  | row :: rows' =>
      ∃ before after,
        text = before +:+ row +:+ after ∧ occur_in_order rows' after
  end.

(** Reading back one SQL string literal (standard-conforming strings: a quote
    inside the literal is written twice, any other quote ends it). The body
    reader starts after the opening quote and returns the value with the text
    that follows the closing quote. *)
Fixpoint sql_literal_body (s : string) : option (string * string) :=
  match s with
  | EmptyString => None
  | String c s' =>
      if Ascii.eqb c "'" then
        match s' with
        | String c' s'' =>
            if Ascii.eqb c' "'" then
              match sql_literal_body s'' with
              | Some (v, rest) => Some (String "'" v, rest)
              | None => None
              end
            else Some (EmptyString, s')
        | EmptyString => Some (EmptyString, EmptyString)
        end
      else
        match sql_literal_body s' with
        | Some (v, rest) => Some (String c v, rest)
        | None => None
        end
  end.

Definition read_sql_literal (s : string) : option (string * string) :=
  match s with
  | String c s' => if Ascii.eqb c "'" then sql_literal_body s' else None
  | EmptyString => None
  end.

(** The text after a literal does not start with a quote. *)
Definition no_leading_quote (rest : string) : Prop :=
  match rest with
  | String c _ => c ≠ "'"%char
  | EmptyString => True
  end.

(** A string with nothing but white space in it. *)
Definition blank (s : string) : bool :=
  forallb isspace (list_ascii_of_string s).

(** The normalised name and reference of a row of the second loop. *)
Definition normalised (v : option value) : scalar :=
  first_of_list SNone (default (VScalar SNone) v).

(** The display name as the specification words it: a value counts when it
    is non-null and non-empty. *)
Definition nonempty_nonnull (x : scalar) : bool :=
  notna x && negb (String.eqb (str x) "").

Definition display_name_as_specified (name ref : option value) : string :=
  if nonempty_nonnull (normalised name) then sql_quote (str (normalised name))
  else if nonempty_nonnull (normalised ref) then sql_quote (str (normalised ref))
  else "NULL".

(** The one-way indicator is missing: no such column, an empty list, or a
    missing cell. *)
Definition indicator_absent (row : EdgeRow) : Prop :=
  row_oneway row = None ∨ row_oneway row = Some (VList [])
  ∨ oneway_of row = SNone ∨ oneway_of row = SNaN.

(** The supplied length is missing or zero. *)
Definition length_absent_or_zero (row : EdgeRow) : Prop :=
  row_length row = None
  ∨ ∃ l, row_length row = Some l ∧ PrimFloat.eqb l 0 = true.

(** A text ends with a given suffix. *)
Definition ends_with (suffix s : string) : Prop :=
  ∃ body, s = body +:+ suffix.

(** A value counts as a display name when it is non-null and its text has a
    character that is not white space. *)
Definition usable (x : scalar) : bool :=
  notna x && negb (blank (str x)).

(* ===================================================================== *)
(** ** Sample data *)
(* ===================================================================== *)

Definition sample_geometry : Geometry :=
  {| geom_is_empty := false;
     geom_length := Some 0.25%float;
     geom_coords := Some [(8.5%float, 47.25%float); (8.5%float, 47.5%float)];
     geom_hex_ewkb := Some "0102000020E6100000" |}.

(** The motorway of the specification's end-to-end example: 2000 m long,
    one-way. *)
Definition motorway_row : EdgeRow :=
  {| row_highway := Some (VScalar (SStr "motorway"));
     row_tags := None;
     row_osm_id := None; row_id := None;
     row_osmid := Some (VList [SInt 4711; SInt 4712]);
     row_length := Some 2000%float;
     row_geometry := Some sample_geometry;
     row_oneway := Some (VScalar (SStr "yes"));
     row_name := Some (VScalar (SStr "A1"));
     row_ref := None;
     row_u := Some 10; row_v := Some 11;
     row_source := Some 0; row_target := Some 1 |}.

Definition with_oneway (v : option value) (row : EdgeRow) : EdgeRow :=
  {| row_highway := row_highway row; row_tags := row_tags row;
     row_osm_id := row_osm_id row; row_id := row_id row;
     row_osmid := row_osmid row; row_length := row_length row;
     row_geometry := row_geometry row; row_oneway := v;
     row_name := row_name row; row_ref := row_ref row;
     row_u := row_u row; row_v := row_v row;
     row_source := row_source row; row_target := row_target row |}.

Definition with_highway (v : option value) (row : EdgeRow) : EdgeRow :=
  {| row_highway := v; row_tags := row_tags row;
     row_osm_id := row_osm_id row; row_id := row_id row;
     row_osmid := row_osmid row; row_length := row_length row;
     row_geometry := row_geometry row; row_oneway := row_oneway row;
     row_name := row_name row; row_ref := row_ref row;
     row_u := row_u row; row_v := row_v row;
     row_source := row_source row; row_target := row_target row |}.

Definition with_length (l : option float) (row : EdgeRow) : EdgeRow :=
  {| row_highway := row_highway row; row_tags := row_tags row;
     row_osm_id := row_osm_id row; row_id := row_id row;
     row_osmid := row_osmid row; row_length := l;
     row_geometry := row_geometry row; row_oneway := row_oneway row;
     row_name := row_name row; row_ref := row_ref row;
     row_u := row_u row; row_v := row_v row;
     row_source := row_source row; row_target := row_target row |}.

(** The built-in configuration with the allow-mask ["bike"]. *)
Definition bike_only_config : Config :=
  {| way_tag_resolver := Some
       {| wtr_tags := Some {[ "motorway" :=
             {| rule_clazz := Some 11; rule_maxspeed := Some 120;
                rule_flags := Some ["car"] |} ]};
          wtr_final_mask := Some "bike";
          wtr_flag_list := Some ["car"; "bike"; "foot"] |} |}.

Definition with_osmid (v : option value) (row : EdgeRow) : EdgeRow :=
  {| row_highway := row_highway row; row_tags := row_tags row;
     row_osm_id := row_osm_id row; row_id := row_id row;
     row_osmid := v; row_length := row_length row;
     row_geometry := row_geometry row; row_oneway := row_oneway row;
     row_name := row_name row; row_ref := row_ref row;
     row_u := row_u row; row_v := row_v row;
     row_source := row_source row; row_target := row_target row |}.

(** What the first loop makes of a variant of the motorway row. *)
Definition motorway_edge (row : EdgeRow) (km cost reverse_cost : float)
    : ProcessedEdge :=
  {| pe_row := row; pe_osm_id := SInt 4711; pe_clazz := 11; pe_kmh := 120;
     pe_flags_set := {[ "car" ]}; pe_km := km; pe_cost := cost;
     pe_reverse_cost := reverse_cost |}.

(* ===================================================================== *)
(** ** Loading the configuration, node identifiers, statement count *)
(* ===================================================================== *)



(** [Series.unique()]: the distinct values, in order of first appearance. *)
Fixpoint series_unique (l : list Z) : list Z :=
  match l with
  | [] => []
  | x :: l' => x :: List.filter (fun y => negb (Z.eqb y x)) (series_unique l')
  end.

(** [pd.Series(pd.concat([edges_gdf['u'], edges_gdf['v']]).unique())] *)
Definition unique_node_ids (us vs : list Z) : list Z :=
  series_unique (us ++ vs).

(** [dict(zip(unique_node_ids, range(len(unique_node_ids))))] *)
Definition node_id_map (us vs : list Z) : gmap Z Z :=
  let ids := unique_node_ids us vs in
  foldl (fun d p => <[p.1 := Z.of_nat p.2]> d) ∅
        (zip ids (seq 0 (length ids))).

(** [column.map(d)]: a value that is no key of [d] maps to a missing cell. *)
Definition series_map (d : gmap Z Z) (column : list Z) : list (option Z) :=
  map (fun x => d !! x) column.

(** [edges_gdf['source']] and [edges_gdf['target']] *)
Definition source_column (us vs : list Z) : list (option Z) :=
  series_map (node_id_map us vs) us.

Definition target_column (us vs : list Z) : list (option Z) :=
  series_map (node_id_map us vs) vs.

(** [total_chunks = (len(insert_value_tuples) + chunk_size - 1) // chunk_size],
    the number the builder logs. *)
Definition total_chunks (n : nat) : nat :=
  ((n + chunk_size - 1) / chunk_size)%nat.

(** A row gets past both [continue] tests of the first loop. *)
Definition kept (cfg : Config) (row : EdgeRow) : bool :=
  match _resolve_way_tags cfg (tags_of row) with
  | inr (clazz, _, flags) =>
      _is_way_allowed_by_final_mask cfg flags && negb (Z.eqb clazz 0)
  | inl _ => false
  end.

(** The speed a kept row resolves to is positive and too large for a
    [float]. *)
Definition speed_overflows (cfg : Config) (row : EdgeRow) : bool :=
  match _resolve_way_tags cfg (tags_of row) with
  | inr (_, maxspeed, _) => Z.ltb 0 maxspeed && float_overflows maxspeed
  | inl _ => false
  end.

(** The road type in the row's tag bag is a list with an element. *)
Definition highway_is_list (row : EdgeRow) : bool :=
  match tags_of row !! "highway" with
  | Some (VList (_ :: _)) => true
  | _ => false
  end.

(** A kept row whose [osmid] cell is an empty list. *)
Definition empty_osmid_row : EdgeRow :=
  {| row_highway := Some (VScalar (SStr "motorway"));
     row_tags := None;
     row_osm_id := None; row_id := None;
     row_osmid := Some (VList []);
     row_length := Some 2000%float;
     row_geometry := None;
     row_oneway := None; row_name := None; row_ref := None;
     row_u := Some 10; row_v := Some 11;
     row_source := Some 0; row_target := Some 1 |}.

(** The [osmid] cell is an empty list. *)
Definition osmid_is_empty_list (row : EdgeRow) : bool :=
  match row_osmid row with
  | Some (VList []) => true
  | _ => false
  end.

(** The body of the first loop raises [err] on the row: the resolver on a
    list, [osm_id_val[0]] on an empty list, or the division by too large a
    speed. *)
Definition row_raises (cfg : Config) (row : EdgeRow) (err : exn) : Prop :=
  (err = TypeError ∧ highway_is_list row = true)
  ∨ (err = IndexError ∧ kept cfg row = true
     ∧ osmid_is_empty_list row = true)
  ∨ (err = OverflowError ∧ kept cfg row = true
     ∧ osmid_is_empty_list row = false ∧ speed_overflows cfg row = true).

(** The [try] block of the second loop goes through on the row's geometry. *)
Definition geometry_readable (row : EdgeRow) : bool :=
  match geometry_fields (row_geometry row) with
  | Some _ => true
  | None => false
  end.

(** A tuple carries the columns of a row that the second loop copies. *)
Definition tuple_of_row (t : InsertTuple) (row : EdgeRow) : Prop :=
  t_osm_name t = final_name_for_sql (row_name row) (row_ref row)
  ∧ t_osm_source_id t = default (-1) (row_u row)
  ∧ t_osm_target_id t = default (-1) (row_v row)
  ∧ t_source t = default (-1) (row_source row)
  ∧ t_target t = default (-1) (row_target row)
  ∧ geometry_fields (row_geometry row)
    = Some (t_start t, t_end t, t_geom_way t).

(** No character of the string is [sep]. *)
Definition free_of (sep : ascii) (s : string) : Prop :=
  sep ∉ list_ascii_of_string s.

(** More sample data. *)
Definition with_geometry (g : option Geometry) (row : EdgeRow) : EdgeRow :=
  {| row_highway := row_highway row; row_tags := row_tags row;
     row_osm_id := row_osm_id row; row_id := row_id row;
     row_osmid := row_osmid row; row_length := row_length row;
     row_geometry := g; row_oneway := row_oneway row;
     row_name := row_name row; row_ref := row_ref row;
     row_u := row_u row; row_v := row_v row;
     row_source := row_source row; row_target := row_target row |}.

Definition with_tags (d : option (gmap string value)) (row : EdgeRow)
    : EdgeRow :=
  {| row_highway := row_highway row; row_tags := d;
     row_osm_id := row_osm_id row; row_id := row_id row;
     row_osmid := row_osmid row; row_length := row_length row;
     row_geometry := row_geometry row; row_oneway := row_oneway row;
     row_name := row_name row; row_ref := row_ref row;
     row_u := row_u row; row_v := row_v row;
     row_source := row_source row; row_target := row_target row |}.

Definition footway_row : EdgeRow :=
  with_highway (Some (VScalar (SStr "footway"))) motorway_row.

Definition no_geometry_row : EdgeRow := with_geometry None motorway_row.

(** Four rows: kept, unknown road type, kept without geometry, kept. *)
Definition sample_rows : list EdgeRow :=
  [motorway_row; footway_row; no_geometry_row; motorway_row].

(** The tuple of the motorway row at position [id] of the processed edges. *)
Definition motorway_tuple (id : Z) : InsertTuple :=
  {| t_id := id; t_osm_name := "'A1'";
     t_osm_meta := "NULL";
     t_osm_source_id := 10; t_osm_target_id := 11;
     t_clazz := 11; t_flags := 1; t_source := 0; t_target := 1;
     t_km := 2; t_kmh := 120; t_cost := 2 / 120;
     t_reverse_cost := 100000;
     t_start := (8.5%float, 47.25%float);
     t_end := (8.5%float, 47.5%float);
     t_geom_way := "0102000020E6100000" |}.


(** A rule table whose only speed is beyond the range of a [float]. *)
Definition unbounded_speed_config : Config :=
  {| way_tag_resolver := Some
       {| wtr_tags := Some {[ "motorway" :=
             {| rule_clazz := Some 11; rule_maxspeed := Some (10 ^ 400);
                rule_flags := Some ["car"] |} ]};
          wtr_final_mask := None;
          wtr_flag_list := None |} |}.

(** The built-in configuration with the allow-mask ["car,foot"]. *)
Definition car_foot_config : Config :=
  {| way_tag_resolver := Some
       {| wtr_tags := Some {[ "motorway" :=
             {| rule_clazz := Some 11; rule_maxspeed := Some 120;
                rule_flags := Some ["car"] |} ]};
          wtr_final_mask := Some "car,foot";
          wtr_flag_list := Some ["car"; "bike"; "foot"] |} |}.

(* ===================================================================== *)
(** ** The flag packer *)
(* ===================================================================== *)

Lemma testbit_one_shiftl (i : nat) (j : Z) :
  0 ≤ j → Z.testbit (1 ≪ Z.of_nat i) j = bool_decide (j = Z.of_nat i).
Proof.
  intros Hj. rewrite Z.shiftl_1_l, Z.pow2_bits_eqb by lia.
  destruct (Z.eqb_spec (Z.of_nat i) j); case_bool_decide; congruence.
Qed.

Lemma one_shiftl_bounds (i n : nat) :
  (i < n)%nat → 0 ≤ 1 ≪ Z.of_nat i < 2 ^ Z.of_nat n.
Proof.
  intros Hin. rewrite Z.shiftl_1_l. split; [apply Z.pow_nonneg; lia|].
  apply Z.pow_lt_mono_r; lia.
Qed.

Lemma flag_bitmask_snoc (l : list string) (x : string) :
  flag_bitmask (l ++ [x]) = <[x := 1 ≪ Z.of_nat (length l)]> (flag_bitmask l).
Proof.
  unfold flag_bitmask. rewrite imap_app, foldl_app. simpl.
  by rewrite Nat.add_0_r.
Qed.

(** Every entry of the bit table is [1 << i] for a position [i] that holds
    its flag. *)
Lemma flag_bitmask_Some (l : list string) (f : string) (v : Z) :
  flag_bitmask l !! f = Some v →
  ∃ i : nat, l !! i = Some f ∧ v = 1 ≪ Z.of_nat i.
Proof.
  induction l as [|x l IH] using rev_ind; [done|].
  rewrite flag_bitmask_snoc. intros Hv.
  destruct (decide (x = f)) as [->|Hne].
  - rewrite lookup_insert_eq in Hv. injection Hv as <-.
    exists (length l). split; [|done].
    by rewrite lookup_app_r, Nat.sub_diag by lia.
  - rewrite lookup_insert_ne in Hv by done.
    destruct (IH Hv) as (i & Hi & ->). exists i. split; [|done].
    by apply lookup_app_l_Some.
Qed.

Lemma flag_bitmask_None (l : list string) (f : string) :
  flag_bitmask l !! f = None ↔ f ∉ l.
Proof.
  induction l as [|x l IH] using rev_ind.
  - split; [intros _; apply not_elem_of_nil | done].
  - rewrite flag_bitmask_snoc, lookup_insert_None, IH.
    rewrite elem_of_app, list_elem_of_singleton. intuition congruence.
Qed.

(** Without repeated names, a flag's entry is the bit of its position. *)
Lemma flag_bitmask_NoDup (l : list string) (i : nat) (f : string) :
  NoDup l → l !! i = Some f → flag_bitmask l !! f = Some (1 ≪ Z.of_nat i).
Proof.
  intros Hnd Hi.
  destruct (flag_bitmask l !! f) as [v|] eqn:Hv.
  - destruct (flag_bitmask_Some _ _ _ Hv) as (j & Hj & ->).
    by rewrite (NoDup_lookup l i j f Hnd Hi Hj).
  - apply flag_bitmask_None in Hv. destruct Hv.
    by eapply list_elem_of_lookup_2.
Qed.

Lemma testbit_foldl_lor {A} (g : A → Z) (l : list A) (a j : Z) :
  Z.testbit (foldl (fun mask x => Z.lor mask (g x)) a l) j
  = Z.testbit a j || existsb (fun x => Z.testbit (g x) j) l.
Proof.
  revert a. induction l as [|x l IH]; intros a; simpl.
  - by rewrite orb_false_r.
  - by rewrite IH, Z.lor_spec, orb_assoc.
Qed.

Lemma testbit_or_flags (d : gmap string Z) (l : list string) (j : Z) :
  Z.testbit (or_flags d l) j = true
  ↔ ∃ f, f ∈ l ∧ Z.testbit (default 0 (d !! f)) j = true.
Proof.
  unfold or_flags. rewrite testbit_foldl_lor, Z.bits_0, orb_false_l.
  rewrite existsb_exists. setoid_rewrite list_elem_of_In. done.
Qed.

Lemma testbit_or_list (l : list Z) (j : Z) :
  Z.testbit (or_list l) j = true ↔ ∃ z, z ∈ l ∧ Z.testbit z j = true.
Proof.
  induction l as [|x l IH]; simpl.
  - rewrite Z.bits_0. split; [done|]. intros (z & Hz & _).
    by apply elem_of_nil in Hz.
  - rewrite Z.lor_spec, orb_true_iff, IH. setoid_rewrite elem_of_cons.
    split; [intros [?|(z & ? & ?)] | intros (z & [->|?] & ?)]; eauto.
Qed.

(** Two loops over lists with the same members pack the same value, whatever
    the order and the repetitions. *)
Lemma or_flags_same_members (d : gmap string Z) (l1 l2 : list string) :
  (∀ f, f ∈ l1 ↔ f ∈ l2) → or_flags d l1 = or_flags d l2.
Proof.
  intros Hmem. apply Z.bits_inj'. intros j _. apply eq_true_iff_eq.
  rewrite !testbit_or_flags. by setoid_rewrite Hmem.
Qed.

Lemma flags_to_int_or_flags (cfg : Config) (flags_set : gset string) :
  _flags_to_int cfg flags_set
  = or_flags (flag_bitmask (config_flag_list cfg)) (elements flags_set).
Proof.
  unfold _flags_to_int. case_decide as He; [|done].
  subst. by rewrite elements_empty.
Qed.

Lemma testbit_flags_to_int (cfg : Config) (flags_set : gset string) (j : Z) :
  Z.testbit (_flags_to_int cfg flags_set) j = true
  ↔ ∃ f, f ∈ flags_set
         ∧ Z.testbit (default 0 (flag_bitmask (config_flag_list cfg) !! f)) j
           = true.
Proof.
  rewrite flags_to_int_or_flags, testbit_or_flags.
  by setoid_rewrite elem_of_elements.
Qed.

Lemma lor_bounds (n a b : Z) :
  0 ≤ n → 0 ≤ a < 2 ^ n → 0 ≤ b < 2 ^ n → 0 ≤ Z.lor a b < 2 ^ n.
Proof.
  intros Hn Ha Hb.
  assert (Hnn : 0 ≤ Z.lor a b) by (apply Z.lor_nonneg; lia).
  split; [done|].
  destruct (decide (Z.lor a b = 0)) as [->|Hnz];
    [apply Z.pow_pos_nonneg; lia|].
  assert (Hpos : 0 < n).
  { destruct (decide (n = 0)) as [->|]; [|lia].
    rewrite Z.pow_0_r in Ha, Hb.
    assert (a = 0) as -> by lia. assert (b = 0) as -> by lia. done. }
  apply Z.log2_lt_pow2; [lia|].
  rewrite Z.log2_lor by lia.
  apply Z.max_lub_lt.
  - destruct (decide (a = 0)) as [->|]; [done|].
    apply Z.log2_lt_pow2; lia.
  - destruct (decide (b = 0)) as [->|]; [done|].
    apply Z.log2_lt_pow2; lia.
Qed.

Lemma foldl_lor_bounds (d : gmap string Z) (n : Z) (l : list string) (a : Z) :
  0 ≤ n → (∀ f v, d !! f = Some v → 0 ≤ v < 2 ^ n) → 0 ≤ a < 2 ^ n →
  0 ≤ foldl (fun mask flag => Z.lor mask (default 0 (d !! flag))) a l < 2 ^ n.
Proof.
  intros Hn Hd. revert a.
  induction l as [|f l IH]; intros a Ha; simpl; [done|].
  apply IH, lor_bounds; [done..|].
  destruct (d !! f) as [v|] eqn:Hf; simpl; [by eapply Hd|].
  split; [done | apply Z.pow_pos_nonneg; lia].
Qed.

Lemma or_flags_bounds (d : gmap string Z) (n : Z) (l : list string) :
  0 ≤ n → (∀ f v, d !! f = Some v → 0 ≤ v < 2 ^ n) →
  0 ≤ or_flags d l < 2 ^ n.
Proof.
  intros Hn Hd. apply foldl_lor_bounds; [done..|].
  split; [done | apply Z.pow_pos_nonneg; lia].
Qed.

Lemma testbit_pack_spec (flag_list : list string) (flags_set : gset string)
    (j : Z) :
  0 ≤ j →
  Z.testbit (pack_spec flag_list flags_set) j = true
  ↔ ∃ (i : nat) (f : string),
      flag_list !! i = Some f ∧ f ∈ flags_set ∧ j = Z.of_nat i.
Proof.
  intros Hj. unfold pack_spec. rewrite testbit_or_list. split.
  - intros (z & Hz & Hbit). apply elem_of_lookup_imap in Hz.
    destruct Hz as (i & f & -> & Hi). exists i, f.
    case_decide; [|by rewrite Z.bits_0 in Hbit].
    rewrite testbit_one_shiftl in Hbit by done.
    by apply bool_decide_eq_true in Hbit.
  - intros (i & f & Hi & Hf & ->).
    exists (1 ≪ Z.of_nat i). split.
    + apply elem_of_lookup_imap. exists i, f. by rewrite decide_True.
    + rewrite testbit_one_shiftl by lia. by apply bool_decide_eq_true.
Qed.

(** C6: with a vocabulary of distinct names, the packed value is the bitwise
    OR of [1 << i] over the vocabulary positions [i] whose flag is in the
    set; for any vocabulary, running the loop over the members in any order
    (even with repetitions) gives the same value, flags outside the
    vocabulary add nothing (the function is total, it cannot raise), and the
    empty set packs to 0. *)
Theorem flags_to_int_packs_vocabulary_bits (cfg : Config)
    (flags_set : gset string) :
  (NoDup (config_flag_list cfg) →
   _flags_to_int cfg flags_set = pack_spec (config_flag_list cfg) flags_set)
  ∧ (∀ order : list string,
       (∀ f, f ∈ order ↔ f ∈ flags_set) →
       or_flags (flag_bitmask (config_flag_list cfg)) order
       = _flags_to_int cfg flags_set)
  ∧ (∀ unknown : gset string,
       (∀ f, f ∈ unknown → f ∉ config_flag_list cfg) →
       _flags_to_int cfg (flags_set ∪ unknown) = _flags_to_int cfg flags_set)
  ∧ _flags_to_int cfg ∅ = 0.
Proof.
  split; [|split; [|split]].
  - intros Hnd. apply Z.bits_inj'. intros j Hj. apply eq_true_iff_eq.
    rewrite testbit_flags_to_int, testbit_pack_spec by done. split.
    + intros (f & Hf & Hbit).
      destruct (flag_bitmask (config_flag_list cfg) !! f) as [v|] eqn:Hv;
        [|by rewrite Z.bits_0 in Hbit].
      destruct (flag_bitmask_Some _ _ _ Hv) as (i & Hi & ->).
      simpl in Hbit. rewrite testbit_one_shiftl in Hbit by done.
      apply bool_decide_eq_true in Hbit. by exists i, f.
    + intros (i & f & Hi & Hf & ->). exists f. split; [done|].
      rewrite (flag_bitmask_NoDup _ _ _ Hnd Hi). simpl.
      rewrite testbit_one_shiftl by lia. by apply bool_decide_eq_true.
  - intros order Hmem. rewrite flags_to_int_or_flags.
    apply or_flags_same_members. intros f.
    by rewrite Hmem, elem_of_elements.
  - intros unknown Hunk. apply Z.bits_inj'. intros j _.
    apply eq_true_iff_eq. rewrite !testbit_flags_to_int. split.
    + intros (f & Hf & Hbit). exists f. split; [|done].
      apply elem_of_union in Hf as [Hf|Hf]; [done|].
      apply Hunk, flag_bitmask_None in Hf. rewrite Hf in Hbit.
      by rewrite Z.bits_0 in Hbit.
    + intros (f & Hf & Hbit). exists f. split; [|done].
      apply elem_of_union. by left.
  - unfold _flags_to_int. by rewrite decide_True.
Qed.

Lemma flags_to_int_packs_vocabulary_bits_witness :
  pack_spec (config_flag_list default_config) {[ "foot"; "car"; "tram" ]} = 5
  ∧ or_flags (flag_bitmask (config_flag_list default_config))
             ["tram"; "car"; "foot"; "car"] = 5
  ∧ _flags_to_int default_config ({[ "foot"; "car" ]} ∪ {[ "tram" ]}) = 5.
Proof.
  assert (Hnd : NoDup (config_flag_list default_config)).
  { apply (bool_decide_unpack _). vm_compute. exact I. }
  destruct (flags_to_int_packs_vocabulary_bits default_config
              {[ "foot"; "car"; "tram" ]}) as (Heq & Horder & _).
  destruct (flags_to_int_packs_vocabulary_bits default_config
              {[ "foot"; "car" ]}) as (_ & _ & Hunknown & _).
  split; [|split].
  - rewrite <- (Heq Hnd). vm_compute. reflexivity.
  - rewrite Horder; [vm_compute; reflexivity|].
    intros f.
    rewrite !elem_of_cons, elem_of_nil, !elem_of_union, !elem_of_singleton.
    tauto.
  - rewrite Hunknown; [vm_compute; reflexivity|].
    intros f Hf%elem_of_singleton. subst f.
    apply (bool_decide_unpack _). vm_compute. exact I.
Defined.

(** C10: for every configuration, hence for every flag vocabulary, of length
    [n], and every flag set, the packed value lies in [0, 2^n). *)
Theorem flags_to_int_bounds (cfg : Config) (flags_set : gset string) :
  0 ≤ _flags_to_int cfg flags_set
    < 2 ^ Z.of_nat (length (config_flag_list cfg)).
Proof.
  rewrite flags_to_int_or_flags. apply or_flags_bounds; [lia|].
  intros f v Hv. destruct (flag_bitmask_Some _ _ _ Hv) as (i & Hi & ->).
  apply one_shiftl_bounds. by eapply lookup_lt_Some.
Qed.

(* ===================================================================== *)
(** ** The mask filter and the tag resolver *)
(* ===================================================================== *)

Lemma final_mask_flags_None (cfg : Config) :
  final_mask_flags cfg = None
  ↔ default "" (way_tag_resolver cfg ≫= wtr_final_mask) = "".
Proof.
  unfold final_mask_flags.
  destruct (way_tag_resolver cfg ≫= wtr_final_mask) as [mask|]; [|done].
  simpl. by destruct (String.eqb_spec mask "").
Qed.

(** C5: no allow-mask is configured when the mask text is missing or empty,
    and then every flag set passes; with a mask the empty flag set fails, and
    a flag set passes exactly when it has a flag in common with the mask. *)
Theorem final_mask_filter (cfg : Config) (flags_set : gset string) :
  (final_mask_flags cfg = None
   ↔ default "" (way_tag_resolver cfg ≫= wtr_final_mask) = "")
  ∧ match final_mask_flags cfg with
    | None => _is_way_allowed_by_final_mask cfg flags_set = true
    | Some mask =>
        _is_way_allowed_by_final_mask cfg ∅ = false
        ∧ (_is_way_allowed_by_final_mask cfg flags_set = true
           ↔ flags_set ∩ mask ≠ ∅)
    end.
Proof.
  split; [apply final_mask_flags_None|].
  unfold _is_way_allowed_by_final_mask.
  destruct (final_mask_flags cfg) as [mask|]; [|done].
  split; [by rewrite decide_True|].
  case_decide as He.
  - subst. split; [done|]. intros Hne. destruct Hne.
    apply intersection_empty_l_L.
  - rewrite negb_true_iff, bool_decide_eq_false.
    rewrite disjoint_intersection_L.
    by rewrite (intersection_comm_L mask flags_set).
Qed.

(** The outcome of the resolver on a tag bag whose road type is missing, or
    is neither a key of the rule table nor a list with an element. *)
Lemma resolve_unknown (cfg : Config) (tags_dict : gmap string value) :
  (tags_dict !! "highway" = None
   ∨ ∃ v, tags_dict !! "highway" = Some v
          ∧ ¬ is_rule_key cfg v ∧ ¬ is_nonempty_list v) →
  _resolve_way_tags cfg tags_dict = inr (0, 0, ∅).
Proof.
  unfold _resolve_way_tags. intros [->|(v & -> & Hkey & Hlist)]; [done|].
  simpl. destruct v as [x|[|x l]]; simpl; [|done|].
  - destruct (truthy x); [|done].
    destruct (dict_get _ x) as [rule|] eqn:Hget; [|done].
    destruct Hkey. destruct x as [| |b|z|s]; try done.
    exists s. split; [done|]. simpl in Hget. by rewrite Hget.
  - destruct Hlist. by exists x, l.
Qed.

(** The resolver on a road type that is a list with an element. *)
Lemma resolve_list (cfg : Config) (tags_dict : gmap string value)
    (v : value) :
  tags_dict !! "highway" = Some v → is_nonempty_list v →
  _resolve_way_tags cfg tags_dict = inl TypeError.
Proof.
  intros Hv (x & l & ->). unfold _resolve_way_tags. by rewrite Hv.
Qed.

(** Everything a loop collects was appended by its body on one of the
    rows. *)
Lemma run_loop_elem {A B} (body : Z → A → step B) (rows : list A) :
  ∀ (idx : Z) (bs : list B) (b : B),
    run_loop body idx rows = inr bs → b ∈ bs →
    ∃ (i : Z) (row : A), row ∈ rows ∧ body i row = Append b.
Proof.
  induction rows as [|row rows IH]; intros idx bs b Hrun Hb; simpl in Hrun.
  - injection Hrun as <-. by apply elem_of_nil in Hb.
  - destruct (body idx row) as [b0| |e] eqn:Hbody; [| |done].
    + destruct (run_loop body (idx + 1) rows) as [e|bs'] eqn:Hrest; [done|].
      injection Hrun as <-. apply elem_of_cons in Hb as [->|Hb].
      * exists idx, row. split; [apply elem_of_cons; by left | done].
      * destruct (IH _ _ _ Hrest Hb) as (i & r & Hr & Hi).
        exists i, r. split; [apply elem_of_cons; by right | done].
    + destruct (IH _ _ _ Hrun Hb) as (i & r & Hr & Hi).
      exists i, r. split; [apply elem_of_cons; by right | done].
Qed.

(** The fields of a processed edge, read off the body of the first loop. *)
Lemma process_row_Append (cfg : Config) (idx : Z) (row : EdgeRow)
    (e : ProcessedEdge) :
  process_row cfg idx row = Append e →
  pe_row e = row
  ∧ _resolve_way_tags cfg (tags_of row)
    = inr (pe_clazz e, pe_kmh e, pe_flags_set e)
  ∧ pe_clazz e ≠ 0
  ∧ _is_way_allowed_by_final_mask cfg (pe_flags_set e) = true
  ∧ pe_km e = PrimFloat.div (length_m_of row) 1000
  ∧ pe_cost e = forward_cost (pe_km e) (pe_kmh e)
  ∧ pe_reverse_cost e = reverse_cost_of (oneway_of row) (pe_cost e).
Proof.
  unfold process_row.
  destruct (_resolve_way_tags cfg (tags_of row))
    as [err|[[clazz maxspeed] flags]]; [done|].
  destruct (_is_way_allowed_by_final_mask cfg flags) eqn:Hmask; [|done].
  simpl. destruct (Z.eqb_spec clazz 0) as [|Hclazz]; [done|].
  match goal with
  | |- match ?o with _ => _ end = _ → _ => destruct o as [err|osm_id]
  end; [done|].
  destruct (Z.ltb 0 maxspeed && float_overflows maxspeed); [done|].
  intros [= <-]. simpl. by repeat split.
Qed.

(** The claim as worded fails on a road type that is a list: the list is no
    key of the rule table, and the resolver raises instead of returning the
    sentinel; the first loop raises with it. *)
Lemma unknown_road_type_list_counterexample :
  ¬ is_rule_key default_config (VList [SStr "motorway"])
  ∧ _resolve_way_tags default_config
      {[ "highway" := VList [SStr "motorway"] ]} = inl TypeError
  ∧ _resolve_way_tags default_config
      {[ "highway" := VList [SStr "motorway"] ]} ≠ inr (0, 0, ∅)
  ∧ process_row default_config 0
      (with_tags (Some {[ "highway" := VList [SStr "motorway"] ]})
         motorway_row)
    = Raise TypeError.
Proof.
  split; [by intros (s & Hs & _)|]. split; [done|]. split; [done|].
  vm_compute. reflexivity.
Qed.

(** C4 (amended): a tag bag whose road type is missing, or is neither a key
    of the rule table nor a list with an element, resolves to class 0, speed
    0 and no flags, without an exception; a row that resolves to class 0 is
    skipped by the first loop, so no processed edge and no insert tuple
    stems from it. *)
Theorem unknown_road_type_is_dropped (cfg : Config) :
  (∀ tags_dict : gmap string value,
     (tags_dict !! "highway" = None
      ∨ ∃ v, tags_dict !! "highway" = Some v
             ∧ ¬ is_rule_key cfg v ∧ ¬ is_nonempty_list v) →
     _resolve_way_tags cfg tags_dict = inr (0, 0, ∅))
  ∧ (∀ (idx : Z) (row : EdgeRow),
       resolves_to_clazz cfg row 0 → process_row cfg idx row = Continue)
  ∧ (∀ (edges_gdf : list EdgeRow) (edges : list ProcessedEdge) (row : EdgeRow),
       processed_edges_list cfg edges_gdf = inr edges →
       resolves_to_clazz cfg row 0 →
       ∀ e, e ∈ edges → pe_row e ≠ row)
  ∧ (∀ (edges_gdf : list EdgeRow) (tuples : list InsertTuple),
       _process_and_write_edges cfg edges_gdf = inr tuples →
       ∀ t, t ∈ tuples → t_clazz t ≠ 0).
Proof.
  split; [apply resolve_unknown|]. split; [|split].
  - intros idx row (maxspeed & flags & Hres). unfold process_row.
    rewrite Hres. by destruct (_is_way_allowed_by_final_mask cfg flags).
  - intros edges_gdf edges row Hrun (maxspeed & flags & Hzero) e He Heq.
    subst row.
    destruct (run_loop_elem _ _ _ _ _ Hrun He) as (i & r & _ & Hbody).
    apply process_row_Append in Hbody as (Hrow & Hres & Hne & _).
    rewrite Hrow, Hres in Hzero. injection Hzero as Hc _ _. done.
  - intros edges_gdf tuples. unfold _process_and_write_edges.
    destruct (processed_edges_list cfg edges_gdf) as [err|edges] eqn:Hrun;
      [done|].
    intros Hrun2 t Ht.
    destruct (run_loop_elem _ _ _ _ _ Hrun2 Ht) as (i & e & He & Hbody).
    unfold insert_tuple in Hbody.
    destruct (geometry_fields _) as [[[p1 p2] hex]|]; [|done].
    injection Hbody as <-. simpl.
    destruct (run_loop_elem _ _ _ _ _ Hrun He) as (j & r & _ & Hrow).
    by apply process_row_Append in Hrow as (_ & _ & Hne & _).
Qed.

Lemma unknown_road_type_is_dropped_witness :
  _resolve_way_tags default_config
    {[ "highway" := VScalar (SStr "footway") ]}
  = inr (0, 0, ∅)
  ∧ process_row default_config 7
      (with_highway (Some (VList [SStr "footway"; SStr "motorway"]))
         motorway_row)
    = Continue.
Proof.
  destruct (unknown_road_type_is_dropped default_config)
    as (Hresolve & Hskip & _).
  split.
  - apply Hresolve. right. exists (VScalar (SStr "footway")).
    split; [apply lookup_singleton_eq|]. split.
    + intros (s & Hs & Hkey). injection Hs as <-.
      vm_compute in Hkey. by destruct Hkey.
    + by intros (x & l & Hl).
  - apply Hskip. exists 0, ∅. vm_compute. reflexivity.
Defined.

(* ===================================================================== *)
(** ** Costs of a processed edge *)
(* ===================================================================== *)

Lemma is_oneway_true (v : scalar) :
  lower (str v) ∈ ["yes"; "true"; "1"] → is_oneway v = true.
Proof.
  intros Hin. apply bool_decide_eq_true.
  rewrite !elem_of_cons in Hin. rewrite !elem_of_cons. tauto.
Qed.

Lemma blocking_value : float_of_Z 100000 = 100000%float.
Proof. reflexivity. Qed.

Lemma penalty_factor : float_of_Z 10 = 10%float.
Proof. reflexivity. Qed.

Lemma reverse_cost_of_forward_only (v : scalar) (cost : float) :
  lower (str v) ∈ ["yes"; "true"; "1"] →
  reverse_cost_of v cost = 100000%float.
Proof.
  intros Hin. unfold reverse_cost_of. rewrite (is_oneway_true v Hin).
  destruct (String.eqb_spec (str v) "-1") as [Heq|_]; [|apply blocking_value].
  rewrite Heq in Hin. simpl in Hin.
  rewrite !elem_of_cons in Hin.
  destruct Hin as [? | [? | [? | Hnil]]]; try discriminate.
  by apply elem_of_nil in Hnil.
Qed.

Lemma reverse_cost_of_absent (row : EdgeRow) (cost : float) :
  oneway_of row = SStr "no" ∨ indicator_absent row →
  reverse_cost_of (oneway_of row) cost = cost.
Proof.
  assert (Hno : ∀ v, v = SStr "no" ∨ v = SNone ∨ v = SNaN →
                     reverse_cost_of v cost = cost).
  { by intros v [-> | [-> | ->]]. }
  intros [Hv | [Hv | [Hv | Hv]]]; apply Hno; try tauto.
  - left. unfold oneway_of. by rewrite Hv.
  - left. unfold oneway_of. by rewrite Hv.
Qed.

(** C1: a processed edge whose indicator reads, in any letter case, "yes",
    "true" or "1" gets the blocking value 100000 as its reverse cost; an edge
    whose indicator is "no" or is missing gets its forward cost. *)
Theorem reverse_cost_by_direction (cfg : Config) (idx : Z) (row : EdgeRow)
    (e : ProcessedEdge) :
  process_row cfg idx row = Append e →
  (lower (str (oneway_of row)) ∈ ["yes"; "true"; "1"] →
   pe_reverse_cost e = 100000%float)
  ∧ (oneway_of row = SStr "no" ∨ indicator_absent row →
     pe_reverse_cost e = pe_cost e).
Proof.
  intros Hrow.
  apply process_row_Append in Hrow as (_ & _ & _ & _ & _ & _ & ->).
  split; intros Hind.
  - by apply reverse_cost_of_forward_only.
  - by apply reverse_cost_of_absent.
Qed.

Lemma reverse_cost_by_direction_witness :
  pe_reverse_cost (motorway_edge motorway_row 2 (2 / 120) 100000)
  = 100000%float
  ∧ pe_reverse_cost
      (motorway_edge (with_oneway None motorway_row) 2 (2 / 120) (2 / 120))
    = (2 / 120)%float.
Proof.
  split.
  - apply (reverse_cost_by_direction default_config 0 motorway_row).
    + vm_compute. reflexivity.
    + apply (bool_decide_unpack _). vm_compute. exact I.
  - apply (reverse_cost_by_direction default_config 0
             (with_oneway None motorway_row)).
    + vm_compute. reflexivity.
    + right. by left.
Defined.

(** C2: a processed edge whose indicator is the string "-1" gets its forward
    cost as reverse cost, and that forward cost is the plain cost of the
    length and the speed: neither direction carries the blocking value. *)
Theorem reversed_one_way_costs (cfg : Config) (idx : Z) (row : EdgeRow)
    (e : ProcessedEdge) :
  process_row cfg idx row = Append e →
  str (oneway_of row) = "-1" →
  pe_reverse_cost e = pe_cost e
  ∧ pe_cost e = forward_cost (pe_km e) (pe_kmh e)
  ∧ (0 < pe_kmh e →
     pe_cost e = PrimFloat.div (pe_km e) (float_of_Z (pe_kmh e))).
Proof.
  intros Hrow Hind.
  apply process_row_Append in Hrow as (_ & _ & _ & _ & _ & Hcost & ->).
  split; [|split; [done|]].
  - unfold reverse_cost_of. rewrite Hind.
    by destruct (is_oneway (oneway_of row)).
  - intros Hpos. rewrite Hcost at 1. unfold forward_cost.
    by destruct (Z.ltb_spec 0 (pe_kmh e)); [|lia].
Qed.

Lemma reversed_one_way_costs_witness :
  pe_reverse_cost
    (motorway_edge (with_oneway (Some (VScalar (SStr "-1"))) motorway_row)
       2 (2 / 120) (2 / 120))
  = (2 / 120)%float.
Proof.
  apply (reversed_one_way_costs default_config 0
           (with_oneway (Some (VScalar (SStr "-1"))) motorway_row)).
  - vm_compute. reflexivity.
  - reflexivity.
Defined.

(** C3: the forward cost of a processed edge is its length in kilometres
    divided by its resolved speed when the speed is positive, and ten times
    the length in kilometres when the speed is zero; the length in
    kilometres is the length in metres divided by 1000, where the length in
    metres is the supplied one or, when that is missing or zero, the length
    of a (non-empty) geometry. *)
Theorem forward_cost_of_processed_edge (cfg : Config) (idx : Z)
    (row : EdgeRow) (e : ProcessedEdge) :
  process_row cfg idx row = Append e →
  _resolve_way_tags cfg (tags_of row)
  = inr (pe_clazz e, pe_kmh e, pe_flags_set e)
  ∧ (0 < pe_kmh e →
     pe_cost e = PrimFloat.div (pe_km e) (float_of_Z (pe_kmh e)))
  ∧ (pe_kmh e = 0 → pe_cost e = PrimFloat.mul (pe_km e) 10)
  ∧ pe_km e = PrimFloat.div (length_m_of row) 1000
  ∧ (∀ l, row_length row = Some l → PrimFloat.eqb l 0 = false →
          length_m_of row = l)
  ∧ (∀ g gl, length_absent_or_zero row →
             row_geometry row = Some g → geom_is_empty g = false →
             geom_length g = Some gl →
             length_m_of row = gl).
Proof.
  intros Hrow.
  apply process_row_Append in Hrow as (_ & Hres & _ & _ & Hkm & Hcost & _).
  split; [done|]. split; [|split; [|split; [done|split]]].
  - intros Hpos. rewrite Hcost. unfold forward_cost.
    by destruct (Z.ltb_spec 0 (pe_kmh e)); [|lia].
  - intros Hzero. rewrite Hcost, Hzero. unfold forward_cost. simpl.
    by rewrite penalty_factor.
  - intros l Hl Hnz. unfold length_m_of. rewrite Hl. simpl. rewrite Hnz.
    by destruct (row_geometry row).
  - intros g gl Habs Hg Hne Hgl. unfold length_m_of. rewrite Hg, Hne, Hgl.
    by destruct Habs as [->|(l & -> & Hz)]; simpl; [|rewrite Hz].
Qed.

Lemma forward_cost_of_processed_edge_witness :
  pe_cost (motorway_edge motorway_row 2 (2 / 120) 100000)
  = (2 / float_of_Z 120)%float
  ∧ length_m_of (with_length (Some 0%float) motorway_row) = 0.25%float.
Proof.
  destruct (forward_cost_of_processed_edge default_config 0 motorway_row
              (motorway_edge motorway_row 2 (2 / 120) 100000))
    as (_ & Hpos & _); [vm_compute; reflexivity|].
  split; [apply Hpos; reflexivity|].
  destruct (forward_cost_of_processed_edge default_config 0
              (with_length (Some 0%float) motorway_row)
              (motorway_edge (with_length (Some 0%float) motorway_row)
                 (0.25 / 1000) (0.25 / 1000 / 120) 100000))
    as (_ & _ & _ & _ & _ & Hgeom); [vm_compute; reflexivity|].
  apply (Hgeom sample_geometry); try reflexivity.
  right. exists 0%float. split; reflexivity.
Defined.

(* ===================================================================== *)
(** ** Chunked insert statements *)
(* ===================================================================== *)

Lemma length_slice {A} (l : list A) (i j : nat) :
  length (slice l i j) = (Nat.min (j - i) (length l - i))%nat.
Proof. unfold slice. by rewrite length_take, length_drop. Qed.

(** The first [m] slices of width [k], glued together, are the first [m * k]
    items. *)
Lemma concat_slices {A} (l : list A) (k m : nat) :
  concat (map (fun i => slice l i (i + k))
              (map (fun j => (0 + j * k)%nat) (seq 0 m)))
  = take (m * k) l.
Proof.
  induction m as [|m IH]; [done|].
  rewrite seq_S, !map_app, concat_app, IH. simpl.
  rewrite app_nil_r. unfold slice.
  replace (m * k + k - m * k)%nat with k by lia.
  rewrite take_take_drop. f_equal. lia.
Qed.

(** The number of chunks is the least one that covers all [n] items. *)
Lemma chunk_count_bounds (n : nat) :
  let m := ((n - 0 + chunk_size - 1) / chunk_size)%nat in
  (n ≤ m * chunk_size)%nat ∧ ∀ j, (j < m)%nat → (j * chunk_size < n)%nat.
Proof.
  unfold chunk_size.
  pose proof (Nat.div_mod (n - 0 + 1000 - 1) 1000 ltac:(lia)) as Hdiv.
  pose proof (Nat.mod_upper_bound (n - 0 + 1000 - 1) 1000 ltac:(lia)) as Hmod.
  cbv zeta. split; [lia|]. intros j Hj. lia.
Qed.

Lemma concat_chunks {A} (l : list A) : concat (chunks l) = l.
Proof.
  unfold chunks, range. rewrite concat_slices. apply take_ge.
  apply chunk_count_bounds.
Qed.

Lemma chunks_sizes {A} (l : list A) :
  map length (chunks l)
  = map (fun i => Nat.min chunk_size (length l - i))
        (range 0 (length l) chunk_size).
Proof.
  unfold chunks. rewrite map_map. apply map_ext. intros i.
  rewrite length_slice. f_equal. lia.
Qed.

Lemma chunks_bounded {A} (l : list A) :
  Forall (fun chunk => (0 < length chunk ≤ 1000)%nat) (chunks l).
Proof.
  apply Forall_forall. intros chunk Hin.
  apply list_elem_of_In, in_map_iff in Hin as (i & <- & Hi).
  unfold range in Hi. apply in_map_iff in Hi as (j & <- & Hj).
  apply in_seq in Hj. rewrite length_slice.
  pose proof (proj2 (chunk_count_bounds (length l)) j ltac:(lia)) as Hlt.
  unfold chunk_size in *. lia.
Qed.

Lemma string_app_nil (b : string) : "" +:+ b = b.
Proof. reflexivity. Qed.

Lemma string_app_cons (x : ascii) (a b : string) :
  String x a +:+ b = String x (a +:+ b).
Proof. reflexivity. Qed.

Lemma string_app_assoc (a b c : string) : (a +:+ b) +:+ c = a +:+ b +:+ c.
Proof.
  induction a as [|x a IH]; [by rewrite !string_app_nil|].
  by rewrite !string_app_cons, IH.
Qed.

Lemma chunk_insert_terminated (chunk : list string) :
  ends_with (";" +:+ newline) (chunk_insert chunk).
Proof.
  exists (insert_prefix +:+ newline +:+ join ("," +:+ newline) chunk).
  unfold chunk_insert. by rewrite !string_app_assoc.
Qed.

(** The rows of a joined text occur in it in their order, whatever stands in
    front and behind. *)
Lemma occur_in_order_join (sep : string) (rows : list string) :
  ∀ before after : string,
    occur_in_order rows (before +:+ join sep rows +:+ after).
Proof.
  induction rows as [|row rows IH]; intros before after; [done|].
  destruct rows as [|row' rows].
  - exists before, after. by split.
  - exists before, (sep +:+ join sep (row' :: rows) +:+ after). split.
    + change (join sep (row :: row' :: rows))
        with (row +:+ sep +:+ join sep (row' :: rows)).
      by rewrite !string_app_assoc.
    + apply IH.
Qed.

(** The text of a statement: the insert prefix and a line break, the rows
    of the chunk separated by a comma and a line break, then [;] and a line
    break. *)
Lemma chunk_insert_text (chunk : list string) :
  chunk_insert chunk
  = "INSERT INTO public_2po_4pgr VALUES" +:+ String "010" ""
    +:+ join ("," +:+ String "010" "") chunk
    +:+ ";" +:+ String "010" "".
Proof. reflexivity. Qed.

(** C7: the tuples are cut, in their order, into chunks of 1 to 1000 tuples
    whose concatenation is the input; each chunk becomes one insert
    statement, whose text is the insert prefix, the rows of the chunk in
    their order, separated by a comma and a line break, and a closing [;]
    with a line break; no tuples give no statement; 2500 tuples give 3
    statements with 1000, 1000 and 500 tuples. *)
Theorem insert_statements_chunked (insert_value_tuples : list string) :
  insert_statements insert_value_tuples
  = map chunk_insert (chunks insert_value_tuples)
  ∧ concat (chunks insert_value_tuples) = insert_value_tuples
  ∧ Forall (fun chunk => (0 < length chunk ≤ 1000)%nat)
           (chunks insert_value_tuples)
  ∧ Forall (ends_with (";" +:+ newline))
           (insert_statements insert_value_tuples)
  ∧ Forall2 (fun statement chunk =>
               statement
               = "INSERT INTO public_2po_4pgr VALUES" +:+ String "010" ""
                 +:+ join ("," +:+ String "010" "") chunk
                 +:+ ";" +:+ String "010" ""
               ∧ occur_in_order chunk statement)
            (insert_statements insert_value_tuples)
            (chunks insert_value_tuples)
  ∧ insert_statements [] = []
  ∧ (length insert_value_tuples = 2500%nat →
     map length (chunks insert_value_tuples) = [1000; 1000; 500]%nat
     ∧ length (insert_statements insert_value_tuples) = 3%nat).
Proof.
  assert (Hmap : insert_statements insert_value_tuples
                 = map chunk_insert (chunks insert_value_tuples)).
  { by destruct insert_value_tuples. }
  split; [done|]. split; [apply concat_chunks|].
  split; [apply chunks_bounded|]. split; [|split; [|split; [done|]]].
  - rewrite Hmap. apply Forall_forall. intros stmt Hin.
    apply list_elem_of_In, in_map_iff in Hin as (chunk & <- & _).
    apply chunk_insert_terminated.
  - rewrite Hmap. generalize (chunks insert_value_tuples) as l.
    induction l as [|chunk l IH]; simpl; constructor; [|done].
    split; [apply chunk_insert_text|].
    unfold chunk_insert. rewrite <- string_app_assoc.
    apply occur_in_order_join.
  - intros Hlen.
    assert (Hsizes : map length (chunks insert_value_tuples)
                     = [1000; 1000; 500]%nat).
    { rewrite chunks_sizes, Hlen. vm_compute. reflexivity. }
    split; [done|].
    rewrite Hmap, length_map, <- (length_map length), Hsizes. done.
Qed.

Lemma insert_statements_chunked_witness :
  (map length (chunks (replicate 2500 "(0)")) = [1000; 1000; 500]%nat
   ∧ length (insert_statements (replicate 2500 "(0)")) = 3%nat)
  ∧ Forall2 (fun statement chunk =>
               statement
               = "INSERT INTO public_2po_4pgr VALUES" +:+ String "010" ""
                 +:+ join ("," +:+ String "010" "") chunk
                 +:+ ";" +:+ String "010" ""
               ∧ occur_in_order chunk statement)
            (insert_statements ["(1, 'a')"; "(2, 'b')"])
            (chunks ["(1, 'a')"; "(2, 'b')"]).
Proof.
  split.
  - apply (insert_statements_chunked (replicate 2500 "(0)")).
    vm_compute. reflexivity.
  - apply (insert_statements_chunked ["(1, 'a')"; "(2, 'b')"]).
Defined.

(* ===================================================================== *)
(** ** Text fields: escaping and the display name *)
(* ===================================================================== *)

Lemma replace_nil (old : ascii) (new : string) : replace old new "" = "".
Proof. reflexivity. Qed.

Lemma replace_quote_cons (c : ascii) (s : string) :
  replace "'" "''" (String c s)
  = if Ascii.eqb c "'" then String "'" (String "'" (replace "'" "''" s))
    else String c (replace "'" "''" s).
Proof. simpl. by destruct (Ascii.eqb c "'"). Qed.

(** Reading the escaped text up to the closing quote gives the text back and
    stops right after that quote. *)
Lemma sql_literal_body_escaped (s rest : string) :
  no_leading_quote rest →
  sql_literal_body ((replace "'" "''" s +:+ "'") +:+ rest) = Some (s, rest).
Proof.
  intros Hrest. induction s as [|c s IH].
  - rewrite replace_nil, string_app_nil, string_app_cons, string_app_nil.
    simpl. destruct rest as [|c' rest']; [done|].
    simpl in Hrest. by destruct (Ascii.eqb_spec c' "'").
  - rewrite replace_quote_cons.
    destruct (Ascii.eqb_spec c "'") as [->|Hc].
    + rewrite !string_app_cons. simpl. by rewrite IH.
    + rewrite !string_app_cons. simpl.
      destruct (Ascii.eqb_spec c "'"); [done|]. by rewrite IH.
Qed.

Lemma read_sql_literal_quote (s rest : string) :
  no_leading_quote rest →
  read_sql_literal (sql_quote s +:+ rest) = Some (s, rest).
Proof.
  intros Hrest. unfold sql_quote.
  rewrite !string_app_cons, !string_app_nil. simpl.
  by apply sql_literal_body_escaped.
Qed.

Lemma final_name_for_sql_cases (name ref : option value) :
  final_name_for_sql name ref
  = if notna (normalised name)
       && negb (String.eqb (strip (str (normalised name))) "")
    then sql_quote (str (normalised name))
    else if notna (normalised ref)
            && negb (String.eqb (strip (str (normalised ref))) "")
    then sql_quote (str (normalised ref))
    else "NULL".
Proof. reflexivity. Qed.

(** Character by character: a quote becomes two quotes, any other character
    stays. *)
Lemma replace_quote_chars (s : string) :
  list_ascii_of_string (replace "'" "''" s)
  = flat_map (fun c => if Ascii.eqb c "'" then ["'"; "'"]%char else [c])
             (list_ascii_of_string s).
Proof.
  induction s as [|c s IH]; [done|].
  rewrite replace_quote_cons. simpl.
  destruct (Ascii.eqb c "'"); simpl; by rewrite IH.
Qed.

(** C8: a text field is written as a quote, the text with every quote
    doubled, and a quote; reading that literal back, in front of any text
    that does not start with a quote, gives the original string and leaves
    exactly the text after it; the name field is either such a literal of the
    name or of the reference, or the bare word NULL, and it is NULL when both
    are missing. *)
Theorem text_field_escaping (name ref : option value) :
  (∀ s, sql_quote s = "'" +:+ replace "'" "''" s +:+ "'")
  ∧ (∀ s, list_ascii_of_string (replace "'" "''" s)
          = flat_map (fun c => if Ascii.eqb c "'" then ["'"; "'"]%char
                               else [c])
                     (list_ascii_of_string s))
  ∧ (∀ s rest, no_leading_quote rest →
               read_sql_literal (sql_quote s +:+ rest) = Some (s, rest))
  ∧ (final_name_for_sql name ref = "NULL"
     ∨ final_name_for_sql name ref = sql_quote (str (normalised name))
     ∨ final_name_for_sql name ref = sql_quote (str (normalised ref)))
  ∧ (notna (normalised name) = false → notna (normalised ref) = false →
     final_name_for_sql name ref = "NULL").
Proof.
  split; [done|]. split; [apply replace_quote_chars|].
  split; [apply read_sql_literal_quote|].
  rewrite final_name_for_sql_cases. split.
  - destruct (_ && _); [tauto|]. destruct (_ && _); tauto.
  - by intros -> ->.
Qed.

Lemma text_field_escaping_witness :
  read_sql_literal (sql_quote "O'Hare ''Rd''" +:+ ", NULL, 10")
  = Some ("O'Hare ''Rd''", ", NULL, 10")
  ∧ final_name_for_sql (Some (VScalar SNaN)) (Some (VList [])) = "NULL".
Proof.
  destruct (text_field_escaping (Some (VScalar SNaN)) (Some (VList [])))
    as (_ & _ & Hread & _ & Hnull).
  split; [apply Hread; discriminate | apply Hnull; reflexivity].
Defined.

Lemma lstrip_blank (s : string) : blank s = true → lstrip s = "".
Proof.
  unfold blank. induction s as [|c s IH]; simpl; [done|].
  destruct (isspace c); [apply IH | done].
Qed.

(** What [lstrip] leaves of a string that is not blank starts with a
    character that is not white space. *)
Lemma lstrip_not_blank (s : string) :
  blank s = false → ∃ c t, lstrip s = String c t ∧ isspace c = false.
Proof.
  unfold blank. induction s as [|c s IH]; simpl; [done|].
  destruct (isspace c) eqn:Hc; [apply IH|]. intros _. by exists c, s.
Qed.

Lemma rstrip_cons_not_space (c : ascii) (t : string) :
  isspace c = false → rstrip (String c t) ≠ "".
Proof. intros Hc. simpl. rewrite Hc. by destruct (rstrip t). Qed.

(** [s.strip()] is empty exactly when [s] is blank. *)
Lemma strip_empty_iff_blank (s : string) :
  String.eqb (strip s) "" = blank s.
Proof.
  unfold strip. destruct (blank s) eqn:Hb.
  - by rewrite (lstrip_blank s Hb).
  - destruct (lstrip_not_blank s Hb) as (c & t & -> & Hc).
    apply String.eqb_neq. by apply rstrip_cons_not_space.
Qed.

(** The claim as worded fails on a name that is a single space: the
    specification's reading emits the space as a literal, the code falls
    through to NULL. *)
Lemma display_name_blank_counterexample :
  display_name_as_specified (Some (VScalar (SStr " "))) None = "' '"
  ∧ final_name_for_sql (Some (VScalar (SStr " "))) None = "NULL"
  ∧ final_name_for_sql (Some (VScalar (SStr " "))) None
    ≠ display_name_as_specified (Some (VScalar (SStr " "))) None.
Proof. split; [done|]. split; [done|]. discriminate. Qed.

(** C9 (amended): with a value counting when it is non-null and not blank,
    the name field is the quoted name (first element of a list) when that
    counts, else the quoted reference when that counts, else NULL. *)
Theorem display_name_selection (name ref : option value) :
  (usable (normalised name) = true →
   final_name_for_sql name ref = sql_quote (str (normalised name)))
  ∧ (usable (normalised name) = false → usable (normalised ref) = true →
     final_name_for_sql name ref = sql_quote (str (normalised ref)))
  ∧ (usable (normalised name) = false → usable (normalised ref) = false →
     final_name_for_sql name ref = "NULL").
Proof.
  rewrite final_name_for_sql_cases, !strip_empty_iff_blank.
  unfold usable. split; [by intros ->|]. split; by intros -> ->.
Qed.

Lemma display_name_selection_witness :
  final_name_for_sql (Some (VList [SStr "  "; SStr "Main St"]))
                     (Some (VScalar (SStr "B 1")))
  = sql_quote "B 1".
Proof.
  apply (display_name_selection (Some (VList [SStr "  "; SStr "Main St"]))
           (Some (VScalar (SStr "B 1")))); reflexivity.
Defined.

(* ===================================================================== *)
(** ** Worked examples *)
(* ===================================================================== *)

(** The specification's end-to-end example: the one-way motorway of 2000 m
    becomes one tuple with class 11, flags 1, 2 km, cost 2/120 and the
    blocking reverse cost. *)
Example motorway_end_to_end :
  _process_and_write_edges default_config [motorway_row]
  = inr [ {| t_id := 0; t_osm_name := "'A1'";
             t_osm_meta := "NULL";
             t_osm_source_id := 10; t_osm_target_id := 11;
             t_clazz := 11; t_flags := 1; t_source := 0; t_target := 1;
             t_km := 2; t_kmh := 120; t_cost := 2 / 120;
             t_reverse_cost := 100000;
             t_start := (8.5%float, 47.25%float);
             t_end := (8.5%float, 47.5%float);
             t_geom_way := "0102000020E6100000" |} ].
Proof. vm_compute. reflexivity. Qed.

(** One tuple goes into one insert statement. *)
Example single_tuple_statement (tuple : string) :
  insert_statements [tuple] = [chunk_insert [tuple]].
Proof. reflexivity. Qed.

(** The same edge under the allow-mask ["bike"] is dropped. *)
Example motorway_masked_out :
  _process_and_write_edges bike_only_config [motorway_row] = inr [].
Proof. vm_compute. reflexivity. Qed.

(** The mask text is split at commas only: white space stays in the names. *)
Example mask_names_keep_blanks :
  split "," "car, bike" = ["car"; " bike"].
Proof. reflexivity. Qed.

(** An empty [osmid] list makes [osm_id_val[0]] raise; the first loop has no
    handler, so the exception leaves [_process_and_write_edges]. *)
Example empty_osmid_raises :
  _process_and_write_edges default_config
    [with_osmid (Some (VList [])) motorway_row]
  = inl IndexError.
Proof. vm_compute. reflexivity. Qed.

(** A name written twice in the vocabulary keeps the bit of its last
    position. *)
Example repeated_flag_name :
  flag_bitmask ["car"; "car"] !! "car" = Some 2.
Proof. vm_compute. reflexivity. Qed.

(** A Boolean or numeric indicator goes through [str] first. *)
Example oneway_of_bool_and_int :
  is_oneway (SBool true) = true ∧ is_oneway (SInt (-1)) = true
  ∧ is_oneway (SBool false) = false ∧ is_oneway SNaN = false.
Proof. vm_compute. done. Qed.

(* ===================================================================== *)
(** ** More on the flag packer *)
(* ===================================================================== *)

(** X11: packing a union is the bitwise OR of the packed parts. *)
Theorem flags_to_int_union (cfg : Config) (A B : gset string) :
  _flags_to_int cfg (A ∪ B)
  = Z.lor (_flags_to_int cfg A) (_flags_to_int cfg B).
Proof.
  apply Z.bits_inj'. intros j _. apply eq_true_iff_eq.
  rewrite Z.lor_spec, orb_true_iff, !testbit_flags_to_int. split.
  - intros (f & Hf & Hbit).
    apply elem_of_union in Hf as [Hf|Hf]; [left|right]; by exists f.
  - intros [(f & Hf & Hbit)|(f & Hf & Hbit)]; exists f;
      (split; [apply elem_of_union; auto | done]).
Qed.

(** The bit of a vocabulary position tells whether its flag is in the
    set. *)
Lemma flags_to_int_testbit (cfg : Config) (A : gset string) (i : nat)
    (f : string) :
  NoDup (config_flag_list cfg) → config_flag_list cfg !! i = Some f →
  Z.testbit (_flags_to_int cfg A) (Z.of_nat i) = true ↔ f ∈ A.
Proof.
  intros Hnd Hi. rewrite testbit_flags_to_int. split.
  - intros (g & Hg & Hbit).
    destruct (flag_bitmask (config_flag_list cfg) !! g) as [v|] eqn:Hv;
      [|by rewrite Z.bits_0 in Hbit].
    destruct (flag_bitmask_Some _ _ _ Hv) as (k & Hk & ->).
    simpl in Hbit. rewrite testbit_one_shiftl in Hbit by lia.
    apply bool_decide_eq_true in Hbit. apply Nat2Z.inj in Hbit. subst k.
    rewrite Hi in Hk. by injection Hk as <-.
  - intros Hf. exists f. split; [done|].
    rewrite (flag_bitmask_NoDup _ _ _ Hnd Hi). simpl.
    rewrite testbit_one_shiftl by lia. by apply bool_decide_eq_true.
Qed.

(** X12: with distinct vocabulary names, the packed value determines the flag set
    among the sets of vocabulary flags: every bit reads back as membership,
    and two such sets with the same packed value are equal. *)
Theorem flags_to_int_decodes (cfg : Config) (A B : gset string) :
  NoDup (config_flag_list cfg) →
  (∀ (i : nat) (f : string), config_flag_list cfg !! i = Some f →
     (Z.testbit (_flags_to_int cfg A) (Z.of_nat i) = true ↔ f ∈ A))
  ∧ ((∀ f, f ∈ A → f ∈ config_flag_list cfg) →
     (∀ f, f ∈ B → f ∈ config_flag_list cfg) →
     _flags_to_int cfg A = _flags_to_int cfg B → A = B).
Proof.
  intros Hnd. split; [intros i f; by apply flags_to_int_testbit|].
  assert (Hsub : ∀ X Y : gset string,
            (∀ f, f ∈ X → f ∈ config_flag_list cfg) →
            _flags_to_int cfg X = _flags_to_int cfg Y → X ⊆ Y).
  { intros X Y HX Heq f Hf.
    destruct (list_elem_of_lookup_1 _ _ (HX f Hf)) as (i & Hi).
    apply (flags_to_int_testbit cfg Y i f Hnd Hi). rewrite <- Heq.
    by apply (flags_to_int_testbit cfg X i f Hnd Hi). }
  intros HA HB Heq. apply set_eq. intros f. split.
  - by apply (Hsub A B).
  - by apply (Hsub B A).
Qed.

Lemma flags_to_int_decodes_witness :
  (Z.testbit (_flags_to_int default_config {[ "foot"; "car" ]}) 2 = true
   ↔ "foot" ∈ ({[ "foot"; "car" ]} : gset string)).
Proof.
  assert (Hnd : NoDup (config_flag_list default_config)).
  { apply (bool_decide_unpack _). vm_compute. exact I. }
  destruct (flags_to_int_decodes default_config {[ "foot"; "car" ]} ∅ Hnd)
    as (Hbits & _).
  apply (Hbits 2%nat "foot"). reflexivity.
Defined.

(** Under a mask, a flag set passes exactly when it has a flag of the
    mask. *)
Lemma allowed_under_mask (cfg : Config) (mask flags_set : gset string) :
  final_mask_flags cfg = Some mask →
  _is_way_allowed_by_final_mask cfg flags_set = true
  ↔ ∃ f, f ∈ flags_set ∧ f ∈ mask.
Proof.
  intros Hmask. unfold _is_way_allowed_by_final_mask. rewrite Hmask.
  case_decide as He.
  - subst. split; [done|]. intros (f & Hf & _).
    by apply not_elem_of_empty in Hf.
  - rewrite negb_true_iff, bool_decide_eq_false, elem_of_disjoint. split.
    + intros Hnot. apply dec_stable. intros Hnone. apply Hnot.
      intros f Hm Hf. apply Hnone. by exists f.
    + intros (f & Hf & Hm) Hdisj. by apply (Hdisj f).
Qed.

(** A flag set that passes a mask of vocabulary flags shares a bit with the
    packed mask. *)
Lemma allowed_shares_bit (cfg : Config) (mask flags_set : gset string) :
  final_mask_flags cfg = Some mask →
  (∀ f, f ∈ mask → f ∈ config_flag_list cfg) →
  _is_way_allowed_by_final_mask cfg flags_set = true →
  Z.land (_flags_to_int cfg flags_set) (_flags_to_int cfg mask) ≠ 0.
Proof.
  intros Hmask Hvoc Hallowed.
  apply (allowed_under_mask cfg mask flags_set Hmask) in Hallowed
    as (f & Hflags & Hm).
  destruct (flag_bitmask (config_flag_list cfg) !! f) as [v|] eqn:Hv.
  2: { apply flag_bitmask_None in Hv. destruct Hv. by apply Hvoc. }
  destruct (flag_bitmask_Some _ _ _ Hv) as (i & Hi & ->).
  intros Hzero.
  assert (Hbit : Z.testbit (Z.land (_flags_to_int cfg flags_set)
                                   (_flags_to_int cfg mask))
                           (Z.of_nat i) = true).
  { rewrite Z.land_spec, andb_true_iff, !testbit_flags_to_int.
    split; exists f; (split; [done|]); rewrite Hv; simpl;
      rewrite testbit_one_shiftl by lia; by apply bool_decide_eq_true. }
  rewrite Hzero, Z.bits_0 in Hbit. done.
Qed.

(* ===================================================================== *)
(** ** More on the two loops *)
(* ===================================================================== *)

(** What the resolver raises, and when. *)
Lemma resolve_inl (cfg : Config) (tags_dict : gmap string value) (err : exn) :
  _resolve_way_tags cfg tags_dict = inl err
  ↔ err = TypeError
    ∧ ∃ x l, tags_dict !! "highway" = Some (VList (x :: l)).
Proof.
  unfold _resolve_way_tags.
  destruct (tags_dict !! "highway") as [[x|[|x l]]|]; simpl.
  - split; [|by intros (_ & ? & ? & ?)].
    destruct (truthy x); [|done]. by destruct (dict_get _ x).
  - split; [done | by intros (_ & ? & ? & ?)].
  - split; [intros [= <-]; eauto | by intros (-> & _)].
  - split; [done | by intros (_ & ? & ? & ?)].
Qed.

Lemma highway_is_list_resolve (cfg : Config) (row : EdgeRow) :
  highway_is_list row = true
  ↔ _resolve_way_tags cfg (tags_of row) = inl TypeError.
Proof.
  rewrite resolve_inl. unfold highway_is_list.
  destruct (tags_of row !! "highway") as [[x|[|x l]]|]; split;
    try done; try (by intros (_ & ? & ? & ?)).
  intros _. eauto.
Qed.

(** The three ways through the body of the first loop. *)
Lemma process_row_cases (cfg : Config) (idx : Z) (row : EdgeRow) :
  match process_row cfg idx row with
  | Continue => kept cfg row = false ∧ highway_is_list row = false
  | Raise err => row_raises cfg row err
  | Append e =>
      kept cfg row = true ∧ highway_is_list row = false
      ∧ osmid_is_empty_list row = false ∧ speed_overflows cfg row = false
      ∧ pe_row e = row
  end.
Proof.
  unfold process_row, row_raises, kept, speed_overflows, osmid_is_empty_list.
  destruct (_resolve_way_tags cfg (tags_of row))
    as [err|[[clazz maxspeed] flags]] eqn:Hres.
  - left. destruct (proj1 (resolve_inl _ _ _) Hres) as (-> & _).
    split; [done|]. by apply (highway_is_list_resolve cfg).
  - assert (Hno : highway_is_list row = false).
    { destruct (highway_is_list row) eqn:Hl; [|done].
      apply (highway_is_list_resolve cfg) in Hl. congruence. }
    destruct (_is_way_allowed_by_final_mask cfg flags); [|done]. simpl.
    destruct (Z.eqb clazz 0); [done|]. simpl.
    destruct (row_osmid row) as [[[| | | |]|[|x l]]|];
      try (right; left; done);
      destruct (Z.ltb 0 maxspeed && float_overflows maxspeed);
      try done; right; right; done.
Qed.

(** The second loop has no way to raise. *)
Lemma insert_tuple_cases (cfg : Config) (idx : Z) (e : ProcessedEdge) :
  match insert_tuple cfg idx e with
  | Continue => geometry_readable (pe_row e) = false
  | Raise _ => False
  | Append t =>
      geometry_readable (pe_row e) = true ∧ t_id t = idx
      ∧ tuple_of_row t (pe_row e)
      ∧ t_flags t = _flags_to_int cfg (pe_flags_set e)
  end.
Proof.
  unfold insert_tuple, geometry_readable, tuple_of_row.
  destruct (geometry_fields (row_geometry (pe_row e))) as [[[p1 p2] hex]|];
    [|done].
  simpl. by repeat split.
Qed.

(** The first loop keeps, in their order, exactly the rows that pass the
    mask and resolve to a class other than 0. *)
Lemma first_loop_filter (cfg : Config) (rows : list EdgeRow) :
  ∀ (idx : Z) (edges : list ProcessedEdge),
    run_loop (process_row cfg) idx rows = inr edges →
    map pe_row edges = List.filter (kept cfg) rows.
Proof.
  induction rows as [|row rows IH]; intros idx edges Hrun; simpl in Hrun.
  - by injection Hrun as <-.
  - pose proof (process_row_cases cfg idx row) as Hcase.
    destruct (process_row cfg idx row) as [e| |err]; [| |done].
    + destruct (run_loop (process_row cfg) (idx + 1) rows) as [|edges']
        eqn:Hrest; [done|].
      injection Hrun as <-. destruct Hcase as (Hkept & _ & _ & _ & Hrow).
      simpl. rewrite Hkept, Hrow. f_equal. by eapply IH.
    + simpl. rewrite (proj1 Hcase). by eapply IH.
Qed.

Lemma kept_not_list (cfg : Config) (row : EdgeRow) :
  kept cfg row = true → highway_is_list row = false.
Proof.
  unfold kept. intros Hkept.
  destruct (highway_is_list row) eqn:Hl; [|done].
  apply (highway_is_list_resolve cfg) in Hl. by rewrite Hl in Hkept.
Qed.

(** A row on which the body raises does not get past it. *)
Lemma row_raises_process_row (cfg : Config) (idx : Z) (row : EdgeRow)
    (err : exn) :
  row_raises cfg row err → process_row cfg idx row = Raise err.
Proof.
  intros Hraises. pose proof (process_row_cases cfg idx row) as Hcase.
  destruct (process_row cfg idx row) as [e| |err'].
  - destruct Hcase as (Hkept & Hlist & Hosmid & Hspeed & _).
    destruct Hraises as [(_ & H)|[(_ & _ & H)|(_ & _ & _ & H)]]; congruence.
  - destruct Hcase as (Hkept & Hlist).
    destruct Hraises as [(_ & H)|[(_ & H & _)|(_ & H & _)]]; congruence.
  - f_equal. pose proof (kept_not_list cfg row) as Hkl.
    destruct Hraises as [(-> & H)|[(-> & Hk & H)|(-> & Hk & Ho & H)]],
             Hcase as [(-> & H')|[(-> & Hk' & H')|(-> & Hk' & Ho' & H')]];
      try done; try (specialize (Hkl ltac:(done))); congruence.
Qed.

(** One such row is enough for the first loop to raise. *)
Lemma first_loop_raises (cfg : Config) (rows : list EdgeRow) :
  ∀ idx : Z,
    (∃ row err, row ∈ rows ∧ row_raises cfg row err) →
    ∃ err, run_loop (process_row cfg) idx rows = inl err.
Proof.
  induction rows as [|row rows IH]; intros idx (r & err & Hin & Hraises).
  - by apply elem_of_nil in Hin.
  - simpl. apply elem_of_cons in Hin as [->|Hin].
    + rewrite (row_raises_process_row cfg idx row err Hraises). eauto.
    + destruct (IH (idx + 1)) as (err' & ->); [eauto|].
      destruct (process_row cfg idx row) as [e| |err'']; eauto.
Qed.

(** Up to the first row on which the body raises, nothing leaves the loop;
    that row decides the exception. *)
Lemma first_loop_first_raise (cfg : Config) (l1 l2 : list EdgeRow)
    (row : EdgeRow) (err : exn) :
  (∀ r e, r ∈ l1 → ¬ row_raises cfg r e) → row_raises cfg row err →
  ∀ idx : Z, run_loop (process_row cfg) idx (l1 ++ row :: l2) = inl err.
Proof.
  intros Hnone Hraises. induction l1 as [|r l1 IH]; intros idx; simpl.
  - by rewrite (row_raises_process_row cfg idx row err Hraises).
  - pose proof (process_row_cases cfg idx r) as Hcase.
    rewrite IH by (intros r' e Hr'; apply Hnone, elem_of_cons; by right).
    destruct (process_row cfg idx r) as [e| |err']; try done.
    destruct (Hnone r err'); [apply elem_of_cons; by left | done].
Qed.

Lemma second_loop_returns (cfg : Config) (edges : list ProcessedEdge) :
  ∀ idx : Z, ∃ tuples, run_loop (insert_tuple cfg) idx edges = inr tuples.
Proof.
  induction edges as [|e edges IH]; intros idx; simpl; [by exists []|].
  pose proof (insert_tuple_cases cfg idx e) as Hcase.
  destruct (IH (idx + 1)) as (tuples & ->).
  destruct (insert_tuple cfg idx e) as [t| |err]; [| |done]; eauto.
Qed.

(** The tuples of the second loop match, in order, the processed edges whose
    geometry can be read; their identifiers are their positions in the list
    of processed edges. *)
Lemma second_loop_tuples (cfg : Config) (edges : list ProcessedEdge) :
  ∀ (idx : Z) (tuples : list InsertTuple),
    run_loop (insert_tuple cfg) idx edges = inr tuples →
    Forall2 tuple_of_row tuples
            (List.filter geometry_readable (map pe_row edges))
    ∧ Forall (fun t => idx ≤ t_id t < idx + Z.of_nat (length edges)) tuples
    ∧ StronglySorted Z.lt (map t_id tuples).
Proof.
  induction edges as [|e edges IH]; intros idx tuples Hrun; simpl in Hrun.
  - injection Hrun as <-. simpl. repeat split; constructor.
  - pose proof (insert_tuple_cases cfg idx e) as Hcase.
    destruct (insert_tuple cfg idx e) as [t| |err]; [| |done].
    + destruct (run_loop (insert_tuple cfg) (idx + 1) edges) as [|tuples']
        eqn:Hrest; [done|].
      injection Hrun as <-. destruct Hcase as (Hgeom & Hid & Hrow & Hflags).
      destruct (IH _ _ Hrest) as (Hall & Hids & Hsorted).
      simpl. rewrite Hgeom. split; [by constructor|]. split.
      * constructor; [lia|].
        eapply Forall_impl; [exact Hids|]. simpl. intros t' Ht'. lia.
      * constructor; [done|]. apply Forall_forall. intros i Hi.
        apply list_elem_of_In, in_map_iff in Hi as (t' & <- & Ht').
        apply list_elem_of_In in Ht'.
        pose proof (proj1 (Forall_forall _ _) Hids t' Ht') as Hb.
        simpl in Hb. lia.
    + destruct (IH _ _ Hrun) as (Hall & Hids & Hsorted).
      simpl. rewrite Hcase. split; [done|]. split; [|done].
      eapply Forall_impl; [exact Hids|]. simpl. intros t' Ht'. lia.
Qed.

(** Both loops together. *)
Lemma process_and_write_edges_inr (cfg : Config) (rows : list EdgeRow)
    (tuples : list InsertTuple) :
  _process_and_write_edges cfg rows = inr tuples →
  ∃ edges, run_loop (process_row cfg) 0 rows = inr edges
           ∧ run_loop (insert_tuple cfg) 0 edges = inr tuples.
Proof.
  unfold _process_and_write_edges, processed_edges_list.
  destruct (run_loop (process_row cfg) 0 rows) as [|edges]; [done|].
  intros Hrun. by exists edges.
Qed.

Lemma filter_andb {A} (p q : A → bool) (l : list A) :
  List.filter (fun x => p x && q x) l = List.filter q (List.filter p l).
Proof.
  induction l as [|x l IH]; [done|]. simpl.
  destruct (p x); simpl; [|done]. destruct (q x); by rewrite IH.
Qed.

(** X1: the processed edges are, in order, the rows that pass the mask and
    resolve to a class other than 0; nothing is reordered, repeated or
    made up. *)
Theorem first_loop_keeps_filtered_rows (cfg : Config)
    (edges_gdf : list EdgeRow) (edges : list ProcessedEdge) :
  processed_edges_list cfg edges_gdf = inr edges →
  map pe_row edges = List.filter (kept cfg) edges_gdf.
Proof. apply first_loop_filter. Qed.

Lemma first_loop_keeps_filtered_rows_witness :
  map pe_row
    [motorway_edge motorway_row 2 (2 / 120) 100000;
     motorway_edge no_geometry_row 2 (2 / 120) 100000;
     motorway_edge motorway_row 2 (2 / 120) 100000]
  = List.filter (kept default_config) sample_rows.
Proof.
  apply (first_loop_keeps_filtered_rows default_config sample_rows).
  vm_compute. reflexivity.
Defined.

(** X2: one row is enough to make [_process_and_write_edges] raise, so that
    it returns no tuple at all: a row whose road type in the tag bag is a
    list with an element ([TypeError] in the resolver), a row that passes
    both filters with an empty [osmid] list ([IndexError] at
    [osm_id_val[0]]), or one with a positive speed too large for a [float]
    ([OverflowError] in the division). *)
Theorem process_and_write_edges_raises (cfg : Config)
    (edges_gdf : list EdgeRow) (row : EdgeRow) (err : exn) :
  row ∈ edges_gdf → row_raises cfg row err →
  ∃ err', _process_and_write_edges cfg edges_gdf = inl err'.
Proof.
  intros Hin Hraises.
  destruct (first_loop_raises cfg edges_gdf 0) as (err' & Hrun); [eauto|].
  exists err'. unfold _process_and_write_edges, processed_edges_list.
  by rewrite Hrun.
Qed.

Lemma process_and_write_edges_raises_witness :
  ∃ err', _process_and_write_edges default_config
            [motorway_row; empty_osmid_row; motorway_row] = inl err'.
Proof.
  apply (process_and_write_edges_raises default_config
           [motorway_row; empty_osmid_row; motorway_row]
           empty_osmid_row IndexError).
  - apply elem_of_cons. right. apply elem_of_cons. by left.
  - right. left. split; [reflexivity|]. split; vm_compute; reflexivity.
Defined.

(** X4: the row identifiers of the tuples are strictly increasing and lie
    below the number of rows that passed the filters: an identifier is a
    position among the processed edges, and it is not reassigned when an
    edge in front is dropped for its geometry. *)
Theorem tuple_ids_increasing (cfg : Config) (edges_gdf : list EdgeRow)
    (tuples : list InsertTuple) :
  _process_and_write_edges cfg edges_gdf = inr tuples →
  StronglySorted Z.lt (map t_id tuples)
  ∧ Forall (fun t => 0 ≤ t_id t
                     < Z.of_nat (length (List.filter (kept cfg) edges_gdf)))
           tuples.
Proof.
  intros Hrun.
  apply process_and_write_edges_inr in Hrun as (edges & Hfirst & Hsecond).
  apply second_loop_tuples in Hsecond as (_ & Hids & Hsorted).
  split; [done|].
  rewrite <- (first_loop_filter _ _ _ _ Hfirst), length_map.
  eapply Forall_impl; [exact Hids|]. simpl. intros t Ht. lia.
Qed.

Lemma tuple_ids_increasing_witness :
  StronglySorted Z.lt (map t_id [motorway_tuple 0; motorway_tuple 2])
  ∧ Forall (fun t => 0 ≤ t_id t
              < Z.of_nat (length (List.filter (kept default_config)
                                              sample_rows)))
           [motorway_tuple 0; motorway_tuple 2].
Proof.
  apply (tuple_ids_increasing default_config sample_rows).
  vm_compute. reflexivity.
Defined.

(** X3: the tuples are, one for one and in order, the rows that pass the
    filters and whose geometry can be read; each tuple carries its row's
    name field, endpoint identifiers, node numbers and geometry fields. *)
Theorem tuples_match_kept_rows (cfg : Config) (edges_gdf : list EdgeRow)
    (tuples : list InsertTuple) :
  _process_and_write_edges cfg edges_gdf = inr tuples →
  Forall2 tuple_of_row tuples
          (List.filter (fun row => kept cfg row && geometry_readable row)
                       edges_gdf).
Proof.
  intros Hrun.
  apply process_and_write_edges_inr in Hrun as (edges & Hfirst & Hsecond).
  apply second_loop_tuples in Hsecond as (Hall & _ & _).
  by rewrite filter_andb, <- (first_loop_filter _ _ _ _ Hfirst).
Qed.

Lemma tuples_match_kept_rows_witness :
  Forall2 tuple_of_row [motorway_tuple 0; motorway_tuple 2]
          (List.filter (fun row => kept default_config row
                                   && geometry_readable row)
                       sample_rows).
Proof.
  apply (tuples_match_kept_rows default_config sample_rows).
  vm_compute. reflexivity.
Defined.

(** X7: under an allow-mask whose names all belong to the flag vocabulary,
    the packed flags of every tuple share a bit with the packed mask. *)
Theorem tuple_flags_meet_mask (cfg : Config) (edges_gdf : list EdgeRow)
    (tuples : list InsertTuple) (mask : gset string) :
  _process_and_write_edges cfg edges_gdf = inr tuples →
  final_mask_flags cfg = Some mask →
  (∀ f, f ∈ mask → f ∈ config_flag_list cfg) →
  ∀ t, t ∈ tuples → Z.land (t_flags t) (_flags_to_int cfg mask) ≠ 0.
Proof.
  intros Hrun Hmask Hvoc t Ht.
  apply process_and_write_edges_inr in Hrun as (edges & Hfirst & Hsecond).
  destruct (run_loop_elem _ _ _ _ _ Hsecond Ht) as (i & e & He & Hbody).
  pose proof (insert_tuple_cases cfg i e) as Hcase.
  rewrite Hbody in Hcase. destruct Hcase as (_ & _ & _ & ->).
  destruct (run_loop_elem _ _ _ _ _ Hfirst He) as (j & row & _ & Hrow).
  apply process_row_Append in Hrow as (_ & _ & _ & Hallowed & _).
  by eapply allowed_shares_bit.
Qed.

Lemma tuple_flags_meet_mask_witness :
  Z.land (t_flags (motorway_tuple 0))
         (_flags_to_int car_foot_config {[ "car"; "foot" ]}) ≠ 0.
Proof.
  apply (tuple_flags_meet_mask car_foot_config [motorway_row]
           [motorway_tuple 0] {[ "car"; "foot" ]}).
  - vm_compute. reflexivity.
  - vm_compute. reflexivity.
  - intros f Hf. apply elem_of_union in Hf as [Hf|Hf];
      apply elem_of_singleton in Hf; subst f;
      apply (bool_decide_unpack _); vm_compute; exact I.
  - apply elem_of_cons. by left.
Defined.

(* ===================================================================== *)
(** ** More on the resolver and the configuration *)
(* ===================================================================== *)

(** The resolver reads the tag bag at ["highway"] only. *)
Lemma resolve_depends_on_highway (cfg : Config)
    (tags1 tags2 : gmap string value) :
  tags1 !! "highway" = tags2 !! "highway" →
  _resolve_way_tags cfg tags1 = _resolve_way_tags cfg tags2.
Proof. unfold _resolve_way_tags. by intros ->. Qed.

(** The sentinel, an exception on a list, or the entry of the rule table
    under a non-empty road type. *)
Lemma resolve_cases (cfg : Config) (tags_dict : gmap string value) :
  _resolve_way_tags cfg tags_dict = inr (0, 0, ∅)
  ∨ _resolve_way_tags cfg tags_dict = inl TypeError
  ∨ ∃ s rule,
      tags_dict !! "highway" = Some (VScalar (SStr s)) ∧ s ≠ ""
      ∧ wtr_get cfg wtr_tags ∅ !! s = Some rule
      ∧ _resolve_way_tags cfg tags_dict
        = inr (default 0 (rule_clazz rule), default 0 (rule_maxspeed rule),
               list_to_set (default [] (rule_flags rule))).
Proof.
  unfold _resolve_way_tags.
  destruct (tags_dict !! "highway") as [[x|[|x l]]|] eqn:Hv; simpl;
    [|by left|right; by left|by left].
  destruct (truthy x) eqn:Htruthy; [|by left].
  destruct (dict_get _ x) as [rule|] eqn:Hget; [|by left].
  destruct x as [| |b|z|s]; try done. right. right. exists s, rule.
  simpl in Htruthy, Hget. repeat split; try done.
  intros ->. done.
Qed.

(** The rule behind a processed edge. *)
Lemma process_row_rule (cfg : Config) (idx : Z) (row : EdgeRow)
    (e : ProcessedEdge) :
  process_row cfg idx row = Append e →
  ∃ s rule,
    tags_of row !! "highway" = Some (VScalar (SStr s))
    ∧ wtr_get cfg wtr_tags ∅ !! s = Some rule
    ∧ rule_clazz rule = Some (pe_clazz e) ∧ pe_clazz e ≠ 0
    ∧ pe_kmh e = default 0 (rule_maxspeed rule)
    ∧ pe_flags_set e = list_to_set (default [] (rule_flags rule)).
Proof.
  intros Hrow.
  apply process_row_Append in Hrow as (_ & Hres & Hne & _).
  destruct (resolve_cases cfg (tags_of row))
    as [Hnone|[Hraise|(s & rule & Hs & _ & Hrule & Hsome)]].
  - rewrite Hnone in Hres. injection Hres as Hc _ _. by destruct Hne.
  - by rewrite Hraise in Hres.
  - rewrite Hsome in Hres. injection Hres as Hc Hk Hf.
    exists s, rule. repeat split; try done.
    destruct (rule_clazz rule) as [c|]; simpl in Hc; [by subst c|].
    by destruct Hne.
Qed.

(** X6: every processed edge stems from a rule: its road type is a string key
    of the rule table, the entry under it names the edge's class, which is
    not 0, and gives its speed (0 when the entry has none) and its flags. *)
Theorem processed_edge_follows_rule (cfg : Config) (idx : Z) (row : EdgeRow)
    (e : ProcessedEdge) :
  process_row cfg idx row = Append e →
  ∃ s rule,
    tags_of row !! "highway" = Some (VScalar (SStr s))
    ∧ wtr_get cfg wtr_tags ∅ !! s = Some rule
    ∧ rule_clazz rule = Some (pe_clazz e) ∧ pe_clazz e ≠ 0
    ∧ pe_kmh e = default 0 (rule_maxspeed rule)
    ∧ pe_flags_set e = list_to_set (default [] (rule_flags rule)).
Proof. apply process_row_rule. Qed.

Lemma processed_edge_follows_rule_witness :
  ∃ s rule,
    tags_of motorway_row !! "highway" = Some (VScalar (SStr s))
    ∧ wtr_get default_config wtr_tags ∅ !! s = Some rule
    ∧ rule_clazz rule = Some 11 ∧ 11 ≠ 0
    ∧ 120 = default 0 (rule_maxspeed rule)
    ∧ ({[ "car" ]} : gset string) = list_to_set (default [] (rule_flags rule)).
Proof.
  apply (processed_edge_follows_rule default_config 0 motorway_row
           (motorway_edge motorway_row 2 (2 / 120) 100000)).
  vm_compute. reflexivity.
Defined.

Lemma tags_of_highway (row : EdgeRow) :
  tags_of row !! "highway"
  = Some (default (VScalar (highway_of row))
                  (row_tags row ≫= (.!! "highway"))).
Proof.
  unfold tags_of. destruct (row_tags row) as [d|]; simpl.
  - rewrite lookup_union, lookup_singleton_eq.
    by destruct (d !! "highway").
  - by rewrite lookup_singleton_eq.
Qed.

(** X8: a ["highway"] entry of the row's nested tag dictionary overrides the
    row's own road type column; the column decides only when there is no
    such entry. *)
Theorem nested_highway_overrides (cfg : Config) (row : EdgeRow) :
  (∀ d v, row_tags row = Some d → d !! "highway" = Some v →
     _resolve_way_tags cfg (tags_of row)
     = _resolve_way_tags cfg {[ "highway" := v ]})
  ∧ (row_tags row ≫= (.!! "highway") = None →
     _resolve_way_tags cfg (tags_of row)
     = _resolve_way_tags cfg {[ "highway" := VScalar (highway_of row) ]}).
Proof.
  split.
  - intros d v Hd Hv. apply resolve_depends_on_highway.
    by rewrite tags_of_highway, Hd, lookup_singleton_eq; simpl; rewrite Hv.
  - intros Hnone. apply resolve_depends_on_highway.
    by rewrite tags_of_highway, Hnone, lookup_singleton_eq.
Qed.

Lemma nested_highway_overrides_witness :
  _resolve_way_tags default_config
    (tags_of (with_tags (Some {[ "highway" := VScalar (SStr "footway") ]})
                motorway_row))
  = _resolve_way_tags default_config
      {[ "highway" := VScalar (SStr "footway") ]}
  ∧ _resolve_way_tags default_config (tags_of motorway_row)
    = _resolve_way_tags default_config
        {[ "highway" := VScalar (highway_of motorway_row) ]}.
Proof.
  destruct (nested_highway_overrides default_config
              (with_tags (Some {[ "highway" := VScalar (SStr "footway") ]})
                 motorway_row)) as (Hover & _).
  destruct (nested_highway_overrides default_config motorway_row)
    as (_ & Hcolumn).
  split.
  - apply (Hover {[ "highway" := VScalar (SStr "footway") ]});
      [reflexivity|].
    apply lookup_singleton_eq.
  - apply Hcolumn. reflexivity.
Defined.





(* ===================================================================== *)
(** ** More on text fields, the indicator and the mask text *)
(* ===================================================================== *)

Lemma string_app_nil_r (s : string) : s +:+ "" = s.
Proof.
  induction s as [|c s IH]; [done|]. by rewrite string_app_cons, IH.
Qed.

Lemma sql_quote_not_NULL (s : string) : sql_quote s ≠ "NULL".
Proof. unfold sql_quote. rewrite string_app_cons. discriminate. Qed.

(** X13: the name field is the bare word NULL exactly when neither the name
    nor the reference is usable; a text that reads NULL is written as a
    quoted literal and cannot be taken for it. *)
Theorem name_field_NULL_iff (name ref : option value) :
  final_name_for_sql name ref = "NULL"
  ↔ usable (normalised name) = false ∧ usable (normalised ref) = false.
Proof.
  rewrite final_name_for_sql_cases, !strip_empty_iff_blank.
  fold (usable (normalised name)). fold (usable (normalised ref)).
  destruct (usable (normalised name)), (usable (normalised ref));
    split; try done; try (by intros [? ?]);
    intros Hq; by apply sql_quote_not_NULL in Hq.
Qed.

(** X14: different texts give different literals. *)
Theorem sql_quote_injective (s1 s2 : string) :
  sql_quote s1 = sql_quote s2 → s1 = s2.
Proof.
  intros Heq.
  pose proof (read_sql_literal_quote s1 "" I) as H1.
  pose proof (read_sql_literal_quote s2 "" I) as H2.
  rewrite string_app_nil_r in H1, H2. rewrite Heq, H2 in H1.
  by injection H1.
Qed.

Lemma sql_quote_injective_witness : "O'Hare" = "O'Hare".
Proof. apply (sql_quote_injective "O'Hare" "O'Hare"). reflexivity. Defined.

Lemma lower_char_idemp (c : ascii) : lower_char (lower_char c) = lower_char c.
Proof. destruct c as [[] [] [] [] [] [] [] []]; reflexivity. Qed.

Lemma lower_idemp (s : string) : lower (lower s) = lower s.
Proof.
  induction s as [|c s IH]; [done|]. simpl. by rewrite lower_char_idemp, IH.
Qed.

(** No other character is lowered to the minus sign or to the digit 1. *)
Lemma lower_char_minus_one (c : ascii) :
  (lower_char c = "-"%char → c = "-"%char)
  ∧ (lower_char c = "1"%char → c = "1"%char).
Proof.
  destruct c as [[] [] [] [] [] [] [] []];
    split; intros H; vm_compute in H; try discriminate H; reflexivity.
Qed.

Lemma lower_minus_one (s : string) : lower s = "-1" ↔ s = "-1".
Proof.
  split; [|by intros ->].
  destruct s as [|c1 [|c2 [|c3 s]]]; try discriminate. simpl.
  intros [= H1 H2].
  apply lower_char_minus_one in H1. apply lower_char_minus_one in H2.
  by subst.
Qed.

(** X9: the letter case of a text indicator plays no part: lowering it
    changes neither the one-way test nor the reverse cost. *)
Theorem indicator_case_insensitive (s : string) (cost : float) :
  is_oneway (SStr (lower s)) = is_oneway (SStr s)
  ∧ reverse_cost_of (SStr (lower s)) cost = reverse_cost_of (SStr s) cost.
Proof.
  assert (Hone : is_oneway (SStr (lower s)) = is_oneway (SStr s)).
  { unfold is_oneway. simpl. by rewrite lower_idemp. }
  split; [done|]. unfold reverse_cost_of. rewrite Hone. simpl.
  destruct (String.eqb_spec (lower s) "-1") as [Hl|Hl],
           (String.eqb_spec s "-1") as [Hs|Hs]; try done.
  - destruct Hs. by apply (proj1 (lower_minus_one s)).
  - destruct Hl. by apply (proj2 (lower_minus_one s)).
Qed.

Lemma free_of_cons (sep c : ascii) (s : string) :
  free_of sep (String c s) ↔ c ≠ sep ∧ free_of sep s.
Proof.
  unfold free_of. simpl. rewrite not_elem_of_cons. intuition congruence.
Qed.

Lemma split_free (sep : ascii) (s : string) :
  free_of sep s → split sep s = [s].
Proof.
  induction s as [|c s IH]; [done|]. intros (Hc & Hs)%free_of_cons. simpl.
  destruct (Ascii.eqb_spec c sep); [done|]. by rewrite (IH Hs).
Qed.

Lemma split_app_sep (sep : ascii) (x rest : string) :
  free_of sep x →
  split sep (x +:+ String sep rest) = x :: split sep rest.
Proof.
  induction x as [|c x IH].
  - intros _. rewrite string_app_nil. simpl. by rewrite Ascii.eqb_refl.
  - intros (Hc & Hx)%free_of_cons. rewrite string_app_cons. simpl.
    destruct (Ascii.eqb_spec c sep); [done|]. by rewrite (IH Hx).
Qed.

(** Splitting undoes joining, for parts without the separator. *)
Lemma split_join (sep : ascii) (names : list string) :
  names ≠ [] → Forall (free_of sep) names →
  split sep (join (String sep "") names) = names.
Proof.
  induction names as [|x names IH]; [done|]. intros _ Hfree.
  apply Forall_cons in Hfree as (Hx & Hnames).
  destruct names as [|y names]; [by apply split_free|].
  change (join (String sep "") (x :: y :: names))
    with (x +:+ String sep "" +:+ join (String sep "") (y :: names)).
  rewrite string_app_cons, string_app_nil, split_app_sep by done.
  f_equal. by apply IH.
Qed.

(** X10: when the mask text is a comma-separated list of names, an edge passes
    exactly when one of its flags is literally one of the names; the names
    are taken as they stand between the commas, blanks included. *)
Theorem mask_text_names (cfg : Config) (names : list string)
    (flags_set : gset string) :
  way_tag_resolver cfg ≫= wtr_final_mask = Some (join "," names) →
  join "," names ≠ "" →
  Forall (free_of ",") names →
  _is_way_allowed_by_final_mask cfg flags_set = true
  ↔ ∃ name, name ∈ names ∧ name ∈ flags_set.
Proof.
  intros Htext Hne Hfree.
  assert (Hnames : names ≠ []) by (intros ->; by destruct Hne).
  assert (Hmask : final_mask_flags cfg = Some (list_to_set names)).
  { unfold final_mask_flags. rewrite Htext.
    destruct (String.eqb_spec (join "," names) ""); [done|].
    by rewrite split_join. }
  rewrite (allowed_under_mask cfg _ flags_set Hmask).
  setoid_rewrite elem_of_list_to_set. split; intros (f & ? & ?); by exists f.
Qed.

Lemma mask_text_names_witness :
  _is_way_allowed_by_final_mask car_foot_config {[ "bike"; "foot" ]} = true
  ↔ ∃ name, name ∈ ["car"; "foot"]
            ∧ name ∈ ({[ "bike"; "foot" ]} : gset string).
Proof.
  apply (mask_text_names car_foot_config ["car"; "foot"]).
  - reflexivity.
  - discriminate.
  - repeat constructor; unfold free_of; simpl;
      rewrite !not_elem_of_cons; repeat split;
      try discriminate; apply not_elem_of_nil.
Defined.

(* ===================================================================== *)
(** ** More on the chunked insert statements *)
(* ===================================================================== *)

Lemma chunks_length {A} (l : list A) :
  length (chunks l) = total_chunks (length l).
Proof.
  unfold chunks, range, total_chunks.
  by rewrite !length_map, length_seq, Nat.sub_0_r.
Qed.

(** The chunk at position [k] is the slice that starts at [k * 1000]. *)
Lemma chunks_lookup {A} (l : list A) (k : nat) :
  (k < total_chunks (length l))%nat →
  chunks l !! k = Some (take chunk_size (drop (k * chunk_size) l))
  ∧ (k * chunk_size < length l)%nat.
Proof.
  intros Hk. split.
  - unfold chunks, range.
    change (map ?f ?x) with (f <$> x).
    rewrite !list_lookup_fmap, lookup_seq_lt; simpl.
    + unfold slice. do 3 f_equal. lia.
    + unfold total_chunks in Hk. by rewrite Nat.sub_0_r.
  - apply (proj2 (chunk_count_bounds (length l))).
    unfold total_chunks in Hk. by rewrite Nat.sub_0_r.
Qed.

(** X18: the builder writes as many insert statements as the [total_chunks] it
    logs; the SQL text has the header first, the statements next and the
    index commands last. *)
Theorem statement_count (header_sql index_sql : string)
    (insert_value_tuples : list string) :
  length (insert_statements insert_value_tuples)
  = total_chunks (length insert_value_tuples)
  ∧ length (full_sql_content header_sql index_sql insert_value_tuples)
    = (total_chunks (length insert_value_tuples) + 2)%nat
  ∧ head (full_sql_content header_sql index_sql insert_value_tuples)
    = Some header_sql
  ∧ last (full_sql_content header_sql index_sql insert_value_tuples)
    = Some index_sql.
Proof.
  assert (Hlen : length (insert_statements insert_value_tuples)
                 = total_chunks (length insert_value_tuples)).
  { destruct insert_value_tuples as [|x l]; [done|].
    unfold insert_statements. by rewrite length_map, chunks_length. }
  split; [done|]. unfold full_sql_content. split; [|split; [done|]].
  - rewrite !length_app, Hlen. simpl. lia.
  - by rewrite app_assoc, last_snoc.
Qed.

(** X19: every chunk but the last one holds exactly 1000 tuples, and the chunk
    at position [k] holds the tuples from position [1000 k] on. *)
Theorem chunks_full_but_last {A} (l : list A) (k : nat) (chunk : list A) :
  chunks l !! k = Some chunk →
  chunk = take 1000 (drop (k * 1000) l)
  ∧ ((S k < length (chunks l))%nat → length chunk = 1000%nat).
Proof.
  intros Hk.
  assert (Hlt : (k < total_chunks (length l))%nat).
  { rewrite <- chunks_length. by eapply lookup_lt_Some. }
  destruct (chunks_lookup l k Hlt) as (Hchunk & _).
  rewrite Hchunk in Hk. injection Hk as <-. split; [done|].
  intros Hnext. rewrite chunks_length in Hnext.
  destruct (chunks_lookup l (S k) Hnext) as (_ & Hbound).
  rewrite length_take, length_drop. unfold chunk_size in *. lia.
Qed.

Lemma chunks_full_but_last_witness :
  [7; 7; 7]%nat = take 1000 (drop (0 * 1000) [7; 7; 7]%nat).
Proof.
  apply (chunks_full_but_last [7; 7; 7]%nat 0 [7; 7; 7]%nat).
  vm_compute. reflexivity.
Defined.

(** X20: the tuple at position [k] of the input is at position [k mod 1000] of
    the chunk at position [k / 1000]. *)
Theorem tuple_position_in_chunks {A} (l : list A) (k : nat) (x : A) :
  l !! k = Some x →
  ∃ chunk, chunks l !! (k / 1000)%nat = Some chunk
           ∧ chunk !! (k mod 1000)%nat = Some x.
Proof.
  intros Hx. apply lookup_lt_Some in Hx as Hk.
  pose proof (Nat.div_mod k 1000 ltac:(lia)) as Hdiv.
  pose proof (Nat.mod_upper_bound k 1000 ltac:(lia)) as Hmod.
  assert (Hlt : (k / 1000 < total_chunks (length l))%nat).
  { pose proof (chunk_count_bounds (length l)) as Hcover.
    cbv zeta in Hcover. rewrite Nat.sub_0_r in Hcover.
    fold (total_chunks (length l)) in Hcover. destruct Hcover as (Hcover & _).
    unfold chunk_size in Hcover. apply Nat.Div0.div_lt_upper_bound; lia. }
  destruct (chunks_lookup l (k / 1000) Hlt) as (Hchunk & _).
  eexists. split; [exact Hchunk|].
  unfold chunk_size. rewrite lookup_take_lt by done.
  rewrite lookup_drop, <- Hx. f_equal. lia.
Qed.

Lemma tuple_position_in_chunks_witness :
  ∃ chunk, chunks (seq 0 2500) !! (2345 / 1000)%nat = Some chunk
           ∧ chunk !! (2345 mod 1000)%nat = Some 2345%nat.
Proof.
  apply (tuple_position_in_chunks (seq 0 2500) 2345 2345%nat).
  vm_compute. reflexivity.
Defined.

(* ===================================================================== *)
(** ** Node identifiers *)
(* ===================================================================== *)

Lemma series_unique_elem (l : list Z) (x : Z) :
  x ∈ series_unique l ↔ x ∈ l.
Proof.
  induction l as [|y l IH]; [done|]. simpl.
  rewrite !elem_of_cons, list_elem_of_In, filter_In, <- list_elem_of_In, IH.
  rewrite negb_true_iff, Z.eqb_neq.
  destruct (decide (x = y)); tauto.
Qed.

Lemma series_unique_NoDup (l : list Z) : NoDup (series_unique l).
Proof.
  induction l as [|y l IH]; [constructor|]. simpl. constructor.
  - rewrite list_elem_of_In, filter_In, negb_true_iff, Z.eqb_neq. tauto.
  - apply NoDup_ListNoDup, List.NoDup_filter. by apply NoDup_ListNoDup.
Qed.

(** Up to the first appearance of a value, the distinct values are those of
    the part in front of it. *)
Lemma series_unique_first (l1 l2 : list Z) (x : Z) :
  x ∉ l1 →
  ∃ rest, series_unique (l1 ++ x :: l2) = series_unique l1 ++ x :: rest.
Proof.
  induction l1 as [|y l1 IH]; intros Hx; simpl; [eauto|].
  apply not_elem_of_cons in Hx as (Hxy & Hx).
  destruct (IH Hx) as (rest & ->).
  rewrite List.filter_app. simpl.
  destruct (Z.eqb_spec x y) as [|_]; [done|]. simpl. eauto.
Qed.

(** The dictionary built from a list and its positions. *)
Lemma index_map_snoc (l : list Z) (x : Z) :
  foldl (fun d p => <[p.1 := Z.of_nat p.2]> d) (∅ : gmap Z Z)
        (zip (l ++ [x]) (seq 0 (length (l ++ [x]))))
  = <[x := Z.of_nat (length l)]>
      (foldl (fun d p => <[p.1 := Z.of_nat p.2]> d) (∅ : gmap Z Z)
             (zip l (seq 0 (length l)))).
Proof.
  rewrite length_app, Nat.add_1_r, seq_S.
  rewrite zip_with_app by (by rewrite length_seq).
  by rewrite foldl_app.
Qed.

Lemma index_map_Some (l : list Z) (x v : Z) :
  foldl (fun d p => <[p.1 := Z.of_nat p.2]> d) (∅ : gmap Z Z)
        (zip l (seq 0 (length l))) !! x = Some v →
  ∃ k : nat, l !! k = Some x ∧ v = Z.of_nat k.
Proof.
  induction l as [|y l IH] using rev_ind; [done|].
  rewrite index_map_snoc. intros Hv.
  destruct (decide (y = x)) as [->|Hne].
  - rewrite lookup_insert_eq in Hv. injection Hv as <-.
    exists (length l). split; [|done].
    by rewrite lookup_app_r, Nat.sub_diag by lia.
  - rewrite lookup_insert_ne in Hv by done.
    destruct (IH Hv) as (k & Hk & ->). exists k. split; [|done].
    by apply lookup_app_l_Some.
Qed.

Lemma index_map_None (l : list Z) (x : Z) :
  foldl (fun d p => <[p.1 := Z.of_nat p.2]> d) (∅ : gmap Z Z)
        (zip l (seq 0 (length l))) !! x = None
  ↔ x ∉ l.
Proof.
  induction l as [|y l IH] using rev_ind.
  - split; [intros _; apply not_elem_of_nil | done].
  - rewrite index_map_snoc, lookup_insert_None, IH.
    rewrite elem_of_app, list_elem_of_singleton. intuition congruence.
Qed.

Lemma index_map_NoDup (l : list Z) (k : nat) (x : Z) :
  NoDup l → l !! k = Some x →
  foldl (fun d p => <[p.1 := Z.of_nat p.2]> d) (∅ : gmap Z Z)
        (zip l (seq 0 (length l))) !! x = Some (Z.of_nat k).
Proof.
  intros Hnd Hk.
  destruct (foldl _ _ _ !! x) as [v|] eqn:Hv.
  - destruct (index_map_Some _ _ _ Hv) as (j & Hj & ->).
    by rewrite (NoDup_lookup l k j x Hnd Hk Hj).
  - apply index_map_None in Hv. destruct Hv.
    by eapply list_elem_of_lookup_2.
Qed.

(** The number of a node is the position of the node among the distinct
    endpoints. *)
Lemma node_id_map_lookup (us vs : list Z) (x k : Z) :
  node_id_map us vs !! x = Some k
  ↔ ∃ i : nat, unique_node_ids us vs !! i = Some x ∧ k = Z.of_nat i.
Proof.
  unfold node_id_map. cbv zeta. split.
  - apply index_map_Some.
  - intros (i & Hi & ->). apply index_map_NoDup; [|done].
    apply series_unique_NoDup.
Qed.

(** X16: the node numbers are a one-to-one numbering of the distinct
    endpoints by 0, 1, ..., n-1: every endpoint has a number below n, two
    endpoints share a number only when they are the same node, every
    number below n is used, and no cell of the source and target columns is
    left missing. *)
Theorem node_ids_are_a_numbering (us vs : list Z) :
  (∀ x, x ∈ us ++ vs →
     ∃ k, node_id_map us vs !! x = Some k
          ∧ 0 ≤ k < Z.of_nat (length (unique_node_ids us vs)))
  ∧ (∀ x y k, node_id_map us vs !! x = Some k →
              node_id_map us vs !! y = Some k → x = y)
  ∧ (∀ k, 0 ≤ k < Z.of_nat (length (unique_node_ids us vs)) →
          ∃ x, x ∈ us ++ vs ∧ node_id_map us vs !! x = Some k)
  ∧ Forall is_Some (source_column us vs)
  ∧ Forall is_Some (target_column us vs).
Proof.
  assert (Htotal : ∀ x, x ∈ us ++ vs →
            ∃ k, node_id_map us vs !! x = Some k
                 ∧ 0 ≤ k < Z.of_nat (length (unique_node_ids us vs))).
  { intros x Hx. apply series_unique_elem in Hx.
    apply list_elem_of_lookup_1 in Hx as (i & Hi).
    exists (Z.of_nat i). split; [apply node_id_map_lookup; eauto|].
    apply lookup_lt_Some in Hi. unfold unique_node_ids. lia. }
  split; [done|]. split; [|split; [|split]].
  - intros x y k (i & Hi & ->)%node_id_map_lookup
                 (j & Hj & Hij)%node_id_map_lookup.
    apply Nat2Z.inj in Hij. subst j. rewrite Hi in Hj. by injection Hj.
  - intros k Hk.
    destruct (lookup_lt_is_Some_2 (unique_node_ids us vs) (Z.to_nat k))
      as (x & Hx); [lia|].
    exists x. split.
    + apply series_unique_elem. by eapply list_elem_of_lookup_2.
    + apply node_id_map_lookup. exists (Z.to_nat k). split; [done | lia].
  - apply Forall_forall. intros cell Hcell.
    apply list_elem_of_In, in_map_iff in Hcell as (u & <- & Hu).
    destruct (Htotal u) as (k & -> & _); [|done].
    apply elem_of_app. left. by apply list_elem_of_In.
  - apply Forall_forall. intros cell Hcell.
    apply list_elem_of_In, in_map_iff in Hcell as (v & <- & Hv).
    destruct (Htotal v) as (k & -> & _); [|done].
    apply elem_of_app. right. by apply list_elem_of_In.
Qed.

(** X17: the numbers follow the first appearance in the u column followed by
    the v column: the number of a node is the count of distinct endpoints
    in front of its first appearance there. *)
Theorem node_ids_by_first_appearance (us vs l1 l2 : list Z) (x : Z) :
  us ++ vs = l1 ++ x :: l2 → x ∉ l1 →
  node_id_map us vs !! x = Some (Z.of_nat (length (series_unique l1))).
Proof.
  intros Hsplit Hx. apply node_id_map_lookup.
  exists (length (series_unique l1)). split; [|done].
  unfold unique_node_ids. rewrite Hsplit.
  destruct (series_unique_first l1 l2 x Hx) as (rest & ->).
  by rewrite lookup_app_r, Nat.sub_diag by lia.
Qed.

Lemma node_ids_by_first_appearance_witness :
  node_id_map [10; 11; 10] [11; 12; 13] !! 12
  = Some (Z.of_nat (length (series_unique [10; 11; 10; 11]))).
Proof.
  apply (node_ids_by_first_appearance [10; 11; 10] [11; 12; 13]
           [10; 11; 10; 11] [13] 12).
  - reflexivity.
  - rewrite !not_elem_of_cons. repeat split; try discriminate.
    apply not_elem_of_nil.
Defined.

(** The v column is numbered after the whole u column: the target of the
    first edge is not node 1 when later edges start at new nodes. *)
Example node_ids_u_before_v :
  source_column [10; 20] [30; 40] = [Some 0; Some 1]
  ∧ target_column [10; 20] [30; 40] = [Some 2; Some 3].
Proof. vm_compute. done. Qed.

(** A list under ["highway"] in the nested tags reaches the resolver as it
    is and makes it raise; so does a speed that no [float] can hold, in the
    division. Neither is caught in the first loop. *)
Example list_highway_raises :
  _process_and_write_edges default_config
    [motorway_row;
     with_tags (Some {[ "highway" := VList [SStr "motorway"] ]}) motorway_row]
  = inl TypeError.
Proof. vm_compute. reflexivity. Qed.

Example unbounded_speed_raises :
  _process_and_write_edges unbounded_speed_config [motorway_row]
  = inl OverflowError.
Proof. vm_compute. reflexivity. Qed.

(** A dropped geometry leaves a gap in the row identifiers. *)
Example tuple_ids_gap :
  _process_and_write_edges default_config sample_rows
  = inr [motorway_tuple 0; motorway_tuple 2].
Proof. vm_compute. reflexivity. Qed.

(* ===================================================================== *)
(** ** From the rule table to the tuples *)
(* ===================================================================== *)

Lemma insert_tuple_Append (cfg : Config) (idx : Z) (e : ProcessedEdge)
    (t : InsertTuple) :
  insert_tuple cfg idx e = Append t →
  t_clazz t = pe_clazz e ∧ t_kmh t = pe_kmh e
  ∧ t_flags t = _flags_to_int cfg (pe_flags_set e)
  ∧ t_km t = pe_km e ∧ t_cost t = pe_cost e
  ∧ t_reverse_cost t = pe_reverse_cost e.
Proof.
  unfold insert_tuple.
  destruct (geometry_fields _) as [[[p1 p2] hex]|]; [|done].
  intros [= <-]. by repeat split.
Qed.

(** X5: class, speed and flags of every tuple come from one entry of the
    rule table: the entry names the tuple's class, which is not 0, its speed
    is the entry's (0 without one) and its flags are the entry's flags
    packed by the vocabulary. *)
Theorem tuple_follows_rule (cfg : Config) (edges_gdf : list EdgeRow)
    (tuples : list InsertTuple) :
  _process_and_write_edges cfg edges_gdf = inr tuples →
  ∀ t, t ∈ tuples →
    ∃ s rule,
      wtr_get cfg wtr_tags ∅ !! s = Some rule
      ∧ rule_clazz rule = Some (t_clazz t) ∧ t_clazz t ≠ 0
      ∧ t_kmh t = default 0 (rule_maxspeed rule)
      ∧ t_flags t
        = _flags_to_int cfg (list_to_set (default [] (rule_flags rule))).
Proof.
  intros Hrun t Ht.
  apply process_and_write_edges_inr in Hrun as (edges & Hfirst & Hsecond).
  destruct (run_loop_elem _ _ _ _ _ Hsecond Ht) as (i & e & He & Hbody).
  apply insert_tuple_Append in Hbody as (-> & -> & -> & _).
  destruct (run_loop_elem _ _ _ _ _ Hfirst He) as (j & row & _ & Hrow).
  apply process_row_rule in Hrow
    as (s & rule & _ & Hrule & Hclazz & Hne & Hkmh & Hflags).
  exists s, rule. by rewrite <- Hflags.
Qed.

Lemma tuple_follows_rule_witness :
  ∃ s rule,
    wtr_get default_config wtr_tags ∅ !! s = Some rule
    ∧ rule_clazz rule = Some (t_clazz (motorway_tuple 2))
    ∧ t_clazz (motorway_tuple 2) ≠ 0
    ∧ t_kmh (motorway_tuple 2) = default 0 (rule_maxspeed rule)
    ∧ t_flags (motorway_tuple 2)
      = _flags_to_int default_config
          (list_to_set (default [] (rule_flags rule))).
Proof.
  apply (tuple_follows_rule default_config sample_rows
           [motorway_tuple 0; motorway_tuple 2]).
  - vm_compute. reflexivity.
  - apply elem_of_cons. right. apply elem_of_cons. by left.
Defined.
